(** * WireWarden: the interface lifecycle manager of [WireWarden.py]

    A shallow embedding of the non-presentational part of [WireWarden.py]
    (name validation, configuration discovery, the active-interface probe,
    the single-connection admission checks and the [wg-quick] runner) and
    the properties of it that the specification states.

    Conventions.
    - A Python [str] is a list of Unicode code points, each an [N].
    - A Python [set] of strings is a [gset (list N)].
    - The operating system is an interface ([OS]) over an abstract type of
      worlds: a directory listing, a file-existence test, the effective
      user id, [shutil.which] and [subprocess.run].
    - A method of [MainWindow] is a computation in a state-and-exception
      monad over the window, the world and a trace of the observable
      events (directory scans, existence tests, processes run, dialogs).
    - Layout geometry and style sheets are left out: no modelled decision
      reads them. *)

From Stdlib Require Import Ascii String.
From stdpp Require Import base tactics option numbers list sorting relations gmap sets.

Local Open Scope N_scope.

(** ** Python strings *)

Module Py.

(** A character is its code point; a string is the list of its characters. *)
Abbreviation char := N (only parsing).
Abbreviation str := (list N) (only parsing).

(** The string a literal of the source denotes (literals of the source are
    ASCII). *)
Definition lit (s : string) : str :=
  (λ a, N_of_ascii a) <$> list_ascii_of_string s.

(** [str.isspace] for one character, as CPython's [_PyUnicode_IsWhitespace]
    decides it: this is the whitespace of [str.strip()] and [str.split()]
    called without an argument. *)
Definition is_space (c : char) : bool :=
  ((0x09 <=? c) && (c <=? 0x0D)) || ((0x1C <=? c) && (c <=? 0x20))
  || (c =? 0x85) || (c =? 0xA0) || (c =? 0x1680)
  || ((0x2000 <=? c) && (c <=? 0x200A))
  || (c =? 0x2028) || (c =? 0x2029) || (c =? 0x202F) || (c =? 0x205F)
  || (c =? 0x3000).

(** [s.lstrip()] *)
Fixpoint lstrip (s : str) : str :=
  match s with
  | c :: s' => if is_space c then lstrip s' else s
  | [] => []
  end.

(** [s.rstrip()] *)
Definition rstrip (s : str) : str := reverse (lstrip (reverse s)).

(** [s.strip()] *)
Definition strip (s : str) : str := rstrip (lstrip s).

(** [s.split()]: the maximal runs of non-whitespace characters, in order.
    [tok] holds the characters of the run being read, last one first. *)
Fixpoint split_from (tok : str) (s : str) : list str :=
  match s with
  | [] => match tok with [] => [] | _ => [reverse tok] end
  | c :: s' =>
      if is_space c
      then match tok with
           | [] => split_from [] s'
           | _ => reverse tok :: split_from [] s'
           end
      else split_from (c :: tok) s'
  end.

Definition split (s : str) : list str := split_from [] s.

(** [sep.join(parts)] *)
Fixpoint join (sep : str) (parts : list str) : str :=
  match parts with
  | [] => []
  | [p] => p
  | p :: rest => p ++ sep ++ join sep rest
  end.

(** Truth value of a string: non-empty. *)
Definition truthy (s : str) : bool :=
  match s with [] => false | _ => true end.

(** [a or b] on strings. *)
Definition or_ (a b : str) : str := if truthy a then a else b.

(** [a <= b] on strings: lexicographic on code points, a proper prefix
    first. *)
Fixpoint leb (a b : str) : bool :=
  match a, b with
  | [], _ => true
  | _ :: _, [] => false
  | x :: a', y :: b' => (x <? y) || ((x =? y) && leb a' b')
  end.

Definition le (a b : str) : Prop := leb a b = true.

#[global] Instance le_dec : RelDecision le.
Proof. intros a b. unfold le. apply _. Defined.

(** [sorted(xs)] for strings. Python's sort is stable; equal strings are
    indistinguishable, so the sorted list is determined by the order. *)
Definition sorted (xs : list str) : list str := merge_sort le xs.

(** [s.endswith(suffix)] *)
Definition endswith (s suffix : str) : bool :=
  bool_decide (drop (length s - length suffix)%nat s = suffix).

(** [s.rfind(c)] for a character [c]: the index of its last occurrence.
    [i] is the index of the head of [s]. *)
Fixpoint rfind_from (i : nat) (c : char) (s : str) : option nat :=
  match s with
  | [] => None
  | x :: s' =>
      match rfind_from (S i) c s' with
      | Some j => Some j
      | None => if x =? c then Some i else None
      end
  end.

Definition rfind (c : char) (s : str) : option nat := rfind_from 0 c s.

End Py.

(** ** The fragment of [re] that [VALID_IFACE_PATTERN] is written in *)

Module Re.
Import Py.

(** A character set [[...]]: the union of inclusive ranges; a single
    character [c] is the range from [c] to [c]. *)
Definition charset := list (N * N).

Definition in_charset (cs : charset) (c : char) : bool :=
  existsb (λ r, (fst r <=? c) && (c <=? snd r)) cs.

(** The parsed pattern is a sequence of nodes, named as [re]'s parser names
    them. [MAX_REPEAT1 cs] is [[cs]+], greedy. *)
Inductive node :=
  | AT_BEGINNING              (* ^ *)
  | AT_END                    (* $ without re.MULTILINE *)
  | IN (cs : charset)         (* [...] *)
  | MAX_REPEAT1 (cs : charset). (* [...]+ *)

Definition pattern := list node.

(** [$] without [re.MULTILINE]: "matches the end of the string or just
    before the newline at the end of the string". [s] is what is left of
    the subject. *)
Definition at_end (s : str) : bool :=
  match s with
  | [] => true
  | [c] => c =? 0x0A
  | _ => false
  end.

Section Repeat.
Variable cs : charset.
Variable k : nat → str → bool.

(** Zero or more characters of [cs], longest first, then [k]. *)
Fixpoint repeat0 (pos : nat) (s : str) : bool :=
  match s with
  | c :: s' => (in_charset cs c && repeat0 (S pos) s') || k pos s
  | [] => k pos s
  end.

(** One or more. *)
Definition repeat1 (pos : nat) (s : str) : bool :=
  match s with
  | c :: s' => in_charset cs c && repeat0 (S pos) s'
  | [] => false
  end.
End Repeat.

(** Backtracking match of the nodes [p] at position [pos], [s] being the
    rest of the subject from there. *)
Fixpoint match_here (p : pattern) : nat → str → bool :=
  match p with
  | [] => λ _ _, true
  | AT_BEGINNING :: p' => λ pos s, bool_decide (pos = 0%nat) && match_here p' pos s
  | AT_END :: p' => λ pos s, at_end s && match_here p' pos s
  | IN cs :: p' => λ pos s,
      match s with
      | c :: s' => in_charset cs c && match_here p' (S pos) s'
      | [] => false
      end
  | MAX_REPEAT1 cs :: p' => repeat1 cs (match_here p')
  end.

(** [bool(p.match(s))]: the pattern applied at the start of [s]. A match
    object is always true, [None] is false. *)
Definition match_ (p : pattern) (s : str) : bool := match_here p 0 s.

End Re.

(** ** [pathlib] names *)

Module PathLib.
Import Py.

(** [PurePath.stem] of a path whose final component is [name]: the name
    without its suffix, the suffix starting at the last dot when that dot
    is neither the first nor the last character of the name. *)
Definition stem (name : str) : str :=
  match rfind 0x2E name with
  | Some i => if bool_decide (0 < i < length name - 1)%nat then take i name else name
  | None => name
  end.

(** Whether a directory entry matches the glob pattern [*suffix]: the star
    stands for any characters, none included, and [Path.glob] does not
    skip names that start with a dot. *)
Definition glob_star (suffix : str) (name : str) : bool := endswith name suffix.

(** [str(dir / child)] for a relative [child]; [dir] is an absolute,
    resolved directory, which ends with a slash only when it is the
    root. *)
Definition joinpath (dir child : str) : str :=
  if endswith dir (lit "/") then dir ++ child else dir ++ lit "/" ++ child.

End PathLib.

(** ** Constants of the module *)

Import Py.

Definition APP_POLL_MS : N := 3000.

(** [re.compile(r'^[A-Za-z0-9_=+.-]+$')] *)
Definition iface_charset : Re.charset :=
  [ (0x41, 0x5A); (0x61, 0x7A); (0x30, 0x39);
    (0x5F, 0x5F); (0x3D, 0x3D); (0x2B, 0x2B); (0x2E, 0x2E); (0x2D, 0x2D) ].

Definition VALID_IFACE_PATTERN : Re.pattern :=
  [ Re.AT_BEGINNING; Re.MAX_REPEAT1 iface_charset; Re.AT_END ].

(** The character set the documentation of the module names: letters,
    digits, and [_], [=], [+], [.], [-]. *)
Definition iface_char (c : char) : bool :=
  ((0x41 <=? c) && (c <=? 0x5A)) || ((0x61 <=? c) && (c <=? 0x7A))
  || ((0x30 <=? c) && (c <=? 0x39))
  || (c =? 0x5F) || (c =? 0x3D) || (c =? 0x2B) || (c =? 0x2E) || (c =? 0x2D).

(** ** The operating system *)

(** What [subprocess.run(..., capture_output=True, text=True)] returns. *)
Record CompletedProcess := {
  returncode : Z;
  stdout : str;
  stderr : str;
}.

(** The exceptions the program tells apart: [FileNotFoundError], any other
    exception derived from [Exception], and an exception that is not
    ([KeyboardInterrupt], [SystemExit]). The argument is [str(e)]. *)
Inductive PyExc :=
  | FileNotFoundError (msg : str)
  | OtherException (msg : str)
  | NonException (msg : str).

Definition exc_str (e : PyExc) : str :=
  match e with
  | FileNotFoundError m | OtherException m | NonException m => m
  end.

(** [isinstance(e, Exception)] *)
Definition is_Exception (e : PyExc) : bool :=
  match e with NonException _ => false | _ => true end.

(** [isinstance(e, FileNotFoundError)] *)
Definition is_FileNotFoundError (e : PyExc) : bool :=
  match e with FileNotFoundError _ => true | _ => false end.

Inductive run_outcome :=
  | Completed (p : CompletedProcess)
  | Failed (e : PyExc).

(** The environment the program runs in. A world is everything outside the
    process; running a command may change it. *)
Class OS (World : Type) := {
  (** [Path(__file__).parent.resolve()], as a string *)
  script_dir : World → str;
  (** the names of the entries of a directory, in the order the system
      lists them *)
  listdir : World → str → list str;
  (** [Path.exists] *)
  path_exists : World → str → bool;
  (** [os.geteuid()] *)
  geteuid : World → Z;
  (** [shutil.which] *)
  which : World → str → option str;
  (** [subprocess.run(argv, cwd=cwd, capture_output=True, text=True)] *)
  subprocess_run : list str → option str → World → run_outcome * World;
}.

(** ** The window *)

(** An [IfaceCard]: its name and whether each of its buttons is enabled.
    Both buttons call back into the window ([on_up] is [bring_up], [on_down]
    is [bring_down]) with the card's name. *)
Record IfaceCard := {
  name : str;
  up_btn_enabled : bool;
  down_btn_enabled : bool;
}.

(** [IfaceCard(name, on_up, on_down)]: a new push button is enabled. *)
Definition new_card (n : str) : IfaceCard :=
  {| name := n; up_btn_enabled := true; down_btn_enabled := true |}.

(** [card.set_state(is_up)]: only the opposite of the current state stays
    clickable. *)
Definition set_state (is_up : bool) (c : IfaceCard) : IfaceCard :=
  if is_up
  then {| name := name c; up_btn_enabled := false; down_btn_enabled := true |}
  else {| name := name c; up_btn_enabled := true; down_btn_enabled := false |}.

(** An item of [cards_layout]: a card, referred to by its index in the
    store of cards, or the stretch that [load_configs] appends. *)
Inductive LayoutItem :=
  | ItemWidget (ref : nat)
  | ItemStretch.

Definition item_widget (it : LayoutItem) : option nat :=
  match it with ItemWidget r => Some r | ItemStretch => None end.

(** The fields of [MainWindow] that the methods below read or write.
    [widgets] is the store of the card objects created so far: the layout
    and the dictionary [cards] both refer to a card by its index there, so
    an update through one is seen through the other. [cards] is the
    dictionary in insertion order. *)
Record MainWindow := {
  app_dir : str;
  widgets : list IfaceCard;
  cards_layout : list LayoutItem;
  cards : list (str * nat);
  status_label : str;
  timer : option N;
}.

Inductive Icon := Critical | Warning.

(** What the program does that can be observed from outside. *)
Inductive Event :=
  | EvGlob (dir pat : str)
  | EvExists (path : str)
  | EvRun (argv : list str) (cwd : option str)
  | EvMessageBox (icon : Icon) (title text : str).

(** [d[k] = v] on a dictionary kept in insertion order: an existing key
    keeps its place. *)
Fixpoint dict_set {V} (k : str) (v : V) (d : list (str * V)) : list (str * V) :=
  match d with
  | [] => [(k, v)]
  | (k', v') :: d' =>
      if decide (k' = k) then (k, v) :: d' else (k', v') :: dict_set k v d'
  end.

Definition set_status_label (t : str) (w : MainWindow) : MainWindow :=
  {| app_dir := app_dir w; widgets := widgets w; cards_layout := cards_layout w;
     cards := cards w; status_label := t; timer := timer w |}.

Definition set_widgets (ws : list IfaceCard) (w : MainWindow) : MainWindow :=
  {| app_dir := app_dir w; widgets := ws; cards_layout := cards_layout w;
     cards := cards w; status_label := status_label w; timer := timer w |}.

Definition set_timer (t : option N) (w : MainWindow) : MainWindow :=
  {| app_dir := app_dir w; widgets := widgets w; cards_layout := cards_layout w;
     cards := cards w; status_label := status_label w; timer := t |}.

(** The names on the cards of the layout, in its order: the interfaces
    the window offers. *)
Definition offered (w : MainWindow) : list str :=
  omap (λ it, r ← item_widget it; name <$> widgets w !! r) (cards_layout w).

(** What the window keeps of the scan of the directory: the directory, the
    layout, the dictionary, the name of every card and the timer. *)
Definition scanned (w : MainWindow)
    : str * list LayoutItem * list (str * nat) * list str * option N :=
  (app_dir w, cards_layout w, cards w, name <$> widgets w, timer w).

Definition is_glob (e : Event) : bool :=
  match e with EvGlob _ _ => true | _ => false end.

(** The command of the probe. *)
Definition probe_cmd : list str := [lit "wg"; lit "show"; lit "interfaces"].

(** ** State and effects *)

Section Program.
Context {World : Type} `{!OS World}.

Record State := {
  world : World;
  win : MainWindow;
  trace : list Event;
}.

Inductive result (A : Type) :=
  | Return (a : A)
  | Raise (e : PyExc).
Global Arguments Return {A} a.
Global Arguments Raise {A} e.

(** A computation: it returns or raises, and leaves a state either way. *)
Definition M (A : Type) : Type := State → result A * State.

Definition ret {A} (a : A) : M A := λ s, (Return a, s).

Definition bind {A B} (c : M A) (k : A → M B) : M B := λ s,
  match c s with
  | (Return a, s') => k a s'
  | (Raise e, s') => (Raise e, s')
  end.

(** [try: body / except <caught> as e: handler e] *)
Definition try_except {A} (body : M A) (caught : PyExc → bool)
    (handler : PyExc → M A) : M A := λ s,
  match body s with
  | (Raise e, s') => if caught e then handler e s' else (Raise e, s')
  | r => r
  end.

(** The state once the events [evs] have been observed. *)
Definition record (evs : list Event) (s : State) : State :=
  {| world := world s; win := win s; trace := trace s ++ evs |}.

Definition with_world (w : World) (s : State) : State :=
  {| world := w; win := win s; trace := trace s |}.

Definition with_win (w : MainWindow) (s : State) : State :=
  {| world := world s; win := w; trace := trace s |}.

Definition log (e : Event) : M unit := λ s, (Return tt, record [e] s).

Definition get_win : M MainWindow := λ s, (Return (win s), s).

Definition modify_win (f : MainWindow → MainWindow) : M unit := λ s,
  (Return tt, with_win (f (win s)) s).

Definition read_world {A} (f : World → A) : M A := λ s, (Return (f (world s)), s).

End Program.

Arguments State World : clear implicits.
Arguments M World A : clear implicits.

Notation "x <- c ;; k" := (bind c (λ x, k))
  (at level 100, c at next level, right associativity).
Notation "c ;;; k" := (bind c (λ _, k))
  (at level 100, right associativity).

(** ** The methods of [MainWindow] *)

Section Methods.
Context {World : Type} `{!OS World}.

Local Abbreviation M := (M World).

(** A line feed, which a literal of this file cannot hold. *)
Definition LF : str := [0x0A].

(** [QMessageBox.critical] and [QMessageBox.warning]: the dialog is shown
    and the call returns once it is dismissed. *)
Definition message_box (icon : Icon) (title text : str) : M unit :=
  log (EvMessageBox icon title text).

(** [subprocess.run(argv, cwd=cwd, capture_output=True, text=True)],
    without [check]: a completed process is returned whatever its exit
    status, and a command that cannot be started raises. *)
Definition run (argv : list str) (cwd : option str) : M CompletedProcess := λ s,
  let '(o, w') := subprocess_run argv cwd (world s) in
  let s' := with_world w' (record [EvRun argv cwd] s) in
  match o with
  | Completed p => (Return p, s')
  | Failed e => (Raise e, s')
  end.

(** [sorted(self.app_dir.glob("*" + suffix))], each path given by its
    name: the paths share their parent, so they compare as their names
    do. *)
Definition sorted_glob (suffix : str) : M (list str) :=
  w <- get_win ;;
  log (EvGlob (app_dir w) (lit "*" ++ suffix)) ;;;
  names <- read_world (λ x, listdir x (app_dir w)) ;;
  ret (sorted (filter (λ n, PathLib.glob_star suffix n) names)).

Definition check_invalid_configs : M (list str) :=
  paths <- sorted_glob (lit ".conf") ;;
  ret (filter (λ path, ¬ Re.match_ VALID_IFACE_PATTERN (PathLib.stem path)) paths).

(** The body of the second loop of [load_configs]. *)
Definition load_config (w : MainWindow) (path : str) : MainWindow :=
  let name := PathLib.stem path in
  if negb (Re.match_ VALID_IFACE_PATTERN name) then w
  else
    let ref := length (widgets w) in
    {| app_dir := app_dir w;
       widgets := widgets w ++ [new_card name];
       cards_layout := cards_layout w ++ [ItemWidget ref];
       cards := dict_set name ref (cards w);
       status_label := status_label w;
       timer := timer w |}.

(** The first loop of [load_configs] takes every widget out of the
    layout; [self.cards.clear()] follows. *)
Definition clear_cards (w : MainWindow) : MainWindow :=
  {| app_dir := app_dir w;
     widgets := widgets w;
     cards_layout := filter (λ it, item_widget it = None) (cards_layout w);
     cards := [];
     status_label := status_label w;
     timer := timer w |}.

Definition add_stretch (w : MainWindow) : MainWindow :=
  {| app_dir := app_dir w;
     widgets := widgets w;
     cards_layout := cards_layout w ++ [ItemStretch];
     cards := cards w;
     status_label := status_label w;
     timer := timer w |}.

Definition load_configs : M unit :=
  modify_win clear_cards ;;;
  paths <- sorted_glob (lit ".conf") ;;
  modify_win (λ w, foldl load_config w paths) ;;;
  modify_win add_stretch.

Definition get_active_ifaces : M (gset str) :=
  try_except
    (result <- run probe_cmd None ;;
     if bool_decide (returncode result ≠ 0%Z) then ret ∅
     else ret (list_to_set (split (strip (stdout result)))))
    is_FileNotFoundError
    (λ _, ret ∅).

(** The loop of [refresh]: every card of the dictionary is set from the
    active set. *)
Definition set_states (active : gset str) (w : MainWindow) : MainWindow :=
  set_widgets
    (foldl (λ ws kv, alter (set_state (bool_decide (kv.1 ∈ active))) kv.2 ws)
           (widgets w) (cards w))
    w.

(** The text [refresh] gives the status label. *)
Definition active_text (active : gset str) : str :=
  lit "Active: " ++
  (if bool_decide (active ≠ ∅) then join (lit ", ") (sorted (elements active))
   else lit "none").

(** [self.adjust_to_content()], which ends [refresh] and [__init__],
    resizes the window and is left out. *)
Definition refresh : M unit :=
  active <- get_active_ifaces ;;
  modify_win (set_states active) ;;;
  modify_win (set_status_label (active_text active)).

(** The message of the dialog that refuses a second connection. *)
Definition conflict_text (active : gset str) (name : str) : str :=
  lit "Another WireGuard interface is active: " ++
  join (lit ", ") (sorted (elements active)) ++ lit "." ++ LF ++
  lit "Disconnect it before bringing up " ++ name ++ lit ".".

(** [shutil.which] returns a path or [None]; its truth value. *)
Definition truthy_path (p : option str) : bool :=
  match p with Some p => truthy p | None => false end.

(** [str(self.app_dir / f"{name}.conf")] *)
Definition conf_path (w : MainWindow) (name : str) : str :=
  PathLib.joinpath (app_dir w) (name ++ lit ".conf").

(** The command of [run_wg_quick]: [wg-quick up|down <path>], behind
    [pkexec] when the process is not root and [pkexec] is found. *)
Definition wg_quick_cmd (euid : Z) (pkexec : option str) (conf : str) (up : bool)
    : list str :=
  let cmd := [lit "wg-quick"; if up then lit "up" else lit "down"; conf] in
  let needs_elev := bool_decide (euid ≠ 0%Z) in
  if needs_elev && truthy_path pkexec then default [] pkexec :: cmd else cmd.

(** The message of a run that exits with a status other than zero. *)
Definition failure_text (proc : CompletedProcess) : str :=
  or_ (strip (stderr proc)) (or_ (strip (stdout proc)) (lit "wg-quick failed")).

Definition run_wg_quick (name : str) (up : bool) : M unit :=
  w <- get_win ;;
  let path := conf_path w name in
  log (EvExists path) ;;;
  found <- read_world (λ x, path_exists x path) ;;
  if negb found then
    message_box Critical (lit "Error") (lit "Config not found: " ++ path)
  else
    euid <- read_world geteuid ;;
    pkexec <- read_world (λ x, which x (lit "pkexec")) ;;
    let cmd := wg_quick_cmd euid pkexec path up in
    attempt <-
      try_except
        (modify_win (set_status_label (lit "Running: " ++ join (lit " ") cmd)) ;;;
         proc <- run cmd (Some (app_dir w)) ;;
         ret (Some proc))
        is_Exception
        (λ e, message_box Critical (lit "Execution failed") (exc_str e) ;;;
              ret None) ;;
    match attempt with
    | None => ret tt
    | Some proc =>
        (if bool_decide (returncode proc ≠ 0%Z) then
           let msg := failure_text proc in
           message_box Warning (lit "wg-quick error") msg
         else ret tt) ;;;
        refresh
    end.

Definition bring_up (name : str) : M unit :=
  active <- get_active_ifaces ;;
  if bool_decide (active ≠ ∅) && bool_decide (name ∉ active) then
    message_box Warning (lit "Disconnect first") (conflict_text active name)
  else if bool_decide (name ∈ active) then ret tt
  else run_wg_quick name true.

Definition bring_down (name : str) : M unit :=
  active <- get_active_ifaces ;;
  if bool_decide (name ∉ active) then ret tt
  else run_wg_quick name false.

(** The message of the dialog that lists the invalid file names. *)
Definition invalid_text (invalid_files : list str) : str :=
  lit "The following config files have invalid names and cannot be used by WireGuard:"
  ++ LF ++ LF ++ join LF invalid_files ++ LF ++ LF ++
  lit "File names must only contain letters, numbers, '+', '-', '_', '=', or '.' and have no spaces.".

(** The window as [__init__] has it before it scans the directory. *)
Definition new_window (dir : str) : MainWindow :=
  {| app_dir := dir; widgets := []; cards_layout := []; cards := [];
     status_label := lit "Idle"; timer := None |}.

(** [MainWindow.__init__] *)
Definition __init__ : M unit :=
  dir <- read_world script_dir ;;
  modify_win (λ _, new_window dir) ;;;
  invalid_files <- check_invalid_configs ;;
  (match invalid_files with
   | _ :: _ =>
       message_box Critical (lit "Invalid Config Filenames") (invalid_text invalid_files)
   | [] => load_configs
   end) ;;;
  modify_win (set_timer (Some APP_POLL_MS)) ;;;
  refresh.

(** ** The event loop *)

(** The application between two events: its state, and whether an
    exception that nothing caught has ended it. *)
Record App := {
  state : State World;
  halted : bool;
}.

(** A handler run to its end. *)
Definition dispatch (h : M unit) (s : State World) : App :=
  match h s with
  | (Return _, s') => {| state := s'; halted := false |}
  | (Raise _, s') => {| state := s'; halted := true |}
  end.

(** [main()] up to [app.exec()]: the window is built in the world [w]. *)
Definition main (w : World) : App :=
  dispatch __init__ {| world := w; win := new_window []; trace := [] |}.

(** One event of [app.exec()]: the timer fires, the user clicks an
    enabled button of a card of the layout, or the world changes under
    the program. *)
Inductive step : App → App → Prop :=
  | step_timeout a ms :
      halted a = false →
      timer (win (state a)) = Some ms →
      step a (dispatch refresh (state a))
  | step_up_clicked a ref c :
      halted a = false →
      ItemWidget ref ∈ cards_layout (win (state a)) →
      widgets (win (state a)) !! ref = Some c →
      up_btn_enabled c = true →
      step a (dispatch (bring_up (name c)) (state a))
  | step_down_clicked a ref c :
      halted a = false →
      ItemWidget ref ∈ cards_layout (win (state a)) →
      widgets (win (state a)) !! ref = Some c →
      down_btn_enabled c = true →
      step a (dispatch (bring_down (name c)) (state a))
  | step_world a w' :
      halted a = false →
      step a {| state := with_world w' (state a); halted := false |}.

End Methods.

Arguments App World : clear implicits.

(** ** A simulated system

    A small world to run the program in: one directory of configuration
    files, the interfaces that are up, and which tools are installed. *)

Module Sim.

Record World := {
  dir : str;
  entries : list str;
  active : list str;
  has_wg : bool;
  has_wg_quick : bool;
  euid : Z;
  pkexec : option str;
}.

Definition set_active (act : list str) (w : World) : World :=
  {| dir := dir w; entries := entries w; active := act; has_wg := has_wg w;
     has_wg_quick := has_wg_quick w; euid := euid w; pkexec := pkexec w |}.

Definition set_entries (es : list str) (w : World) : World :=
  {| dir := dir w; entries := es; active := active w; has_wg := has_wg w;
     has_wg_quick := has_wg_quick w; euid := euid w; pkexec := pkexec w |}.

Definition not_found (tool : str) : PyExc :=
  FileNotFoundError (lit "[Errno 2] No such file or directory: '" ++ tool ++ lit "'").

Definition ok (out : str) : CompletedProcess :=
  {| returncode := 0; stdout := out; stderr := [] |}.

Definition error (err : str) : CompletedProcess :=
  {| returncode := 1; stdout := []; stderr := err |}.

(** What [pkexec] leaves when it cannot find the program it is asked to
    run: it was started, so [subprocess.run] returns; the complaint is on
    the standard error and the exit status is 127. *)
Definition cannot_run (tool : str) : CompletedProcess :=
  {| returncode := 127; stdout := [];
     stderr := lit "Cannot run program " ++ tool
               ++ lit ": No such file or directory" ++ [0x0A] |}.

(** [wg-quick up|down path], started by [subprocess.run] itself: the
    interface is named after the file. [FileNotFoundError] is the error of
    a command whose first word cannot be started. *)
Definition wg_quick (verb path : str) (w : World) : run_outcome * World :=
  if negb (has_wg_quick w) then (Failed (not_found (lit "wg-quick")), w)
  else
    let name := PathLib.stem (drop (length (PathLib.joinpath (dir w) [])) path) in
    if bool_decide (verb = lit "up") then
      if bool_decide (name ∈ active w)
      then (Completed (error (lit "wg-quick: `" ++ name ++ lit "' already exists" ++ [0x0A])), w)
      else (Completed (ok []), set_active (active w ++ [name]) w)
    else
      if bool_decide (name ∈ active w)
      then (Completed (ok []), set_active (filter (λ n, n ≠ name) (active w)) w)
      else (Completed (error (lit "wg-quick: `" ++ name ++ lit "' is not a WireGuard interface" ++ [0x0A])), w).

(** [subprocess.run]: the program started is the first word of the
    command. Behind the helper a missing [wg-quick] is the helper's failure,
    a completed process; without the helper it is a [FileNotFoundError]. *)
Definition sim_run (argv : list str) (cwd : option str) (w : World) : run_outcome * World :=
  if bool_decide (argv = probe_cmd) then
    if has_wg w then (Completed (ok (join (lit " ") (active w) ++ [0x0A])), w)
    else (Failed (not_found (lit "wg")), w)
  else
    match argv with
    | [tool; verb; path] =>
        if bool_decide (tool = lit "wg-quick") then wg_quick verb path w
        else (Failed (not_found tool), w)
    | [helper; tool; verb; path] =>
        if bool_decide (Some helper = pkexec w ∧ tool = lit "wg-quick")
        then if has_wg_quick w then wg_quick verb path w
             else (Completed (cannot_run tool), w)
        else (Failed (not_found helper), w)
    | tool :: _ => (Failed (not_found tool), w)
    | [] => (Failed (OtherException (lit "list index out of range")), w)
    end.

#[global] Instance os : OS World := {|
  script_dir := dir;
  listdir w d := if bool_decide (d = dir w) then entries w else [];
  path_exists w p := bool_decide (Exists (λ e, PathLib.joinpath (dir w) e = p) (entries w));
  geteuid := euid;
  which w tool := if bool_decide (tool = lit "pkexec") then pkexec w else None;
  subprocess_run := sim_run;
|}.

Definition without_wg_quick (w : World) : World :=
  {| dir := dir w; entries := entries w; active := active w; has_wg := has_wg w;
     has_wg_quick := false; euid := euid w; pkexec := pkexec w |}.


(** An unprivileged user with [pkexec], both tools installed, nothing up. *)
Definition desktop (files : list str) : World :=
  {| dir := lit "/opt/wirewarden"; entries := files; active := [];
     has_wg := true; has_wg_quick := true; euid := 1000;
     pkexec := Some (lit "/usr/bin/pkexec") |}.

(** The window once [__init__] has run in the world [w], and the state it
    runs on. *)
Definition started (w : World) : State World := state (main w).

End Sim.

(** ** Notions of the specification *)

(** A run of whitespace. *)
Definition all_space (s : str) : Prop := forallb is_space s = true.

(** A run without whitespace. *)
Definition no_space (s : str) : Prop := forallb (λ c, negb (is_space c)) s = true.

(** The specification's "whitespace-separated token" of [s]: a non-empty
    run of [s] without whitespace that whitespace or an end of [s] bounds
    on each side. *)
Definition is_token (x s : str) : Prop :=
  x ≠ [] ∧ no_space x ∧
  ∃ pre post, s = pre ++ x ++ post
    ∧ (∀ c, last pre = Some c → is_space c = true)
    ∧ (∀ c, head post = Some c → is_space c = true).

(** The specification's valid name: non-empty, every character in the
    set. *)
Definition spec_valid (s : str) : Prop := s ≠ [] ∧ forallb iface_char s = true.

(** [x] occurs in [s]. *)
Definition occurs_in (x s : str) : Prop := ∃ pre post, s = pre ++ x ++ post.

(** ** States of a transition *)

Section Attempt.
Context {World : Type} `{!OS World}.

(** The command [run_wg_quick name up] builds in the state [s]. *)
Definition cmd_of (name : str) (up : bool) (s : State World) : list str :=
  wg_quick_cmd (geteuid (world s)) (which (world s) (lit "pkexec"))
               (conf_path (win s) name) up.

(** The state in which [subprocess.run] leaves [run_wg_quick name up]
    started in [s], the world being [w'] by then: the file has been
    looked for, the label says what runs, the command has been run. *)
Definition launched (name : str) (up : bool) (w' : World) (s : State World)
    : State World :=
  {| world := w';
     win := set_status_label
              (lit "Running: " ++ join (lit " ") (cmd_of name up s)) (win s);
     trace := trace s ++ [EvExists (conf_path (win s) name);
                          EvRun (cmd_of name up s) (Some (app_dir (win s)))] |}.

(** The dialog of a run that exits with a status other than zero. *)
Definition failure_dialog (p : CompletedProcess) : list Event :=
  if bool_decide (returncode p ≠ 0%Z)
  then [EvMessageBox Warning (lit "wg-quick error") (failure_text p)]
  else [].

(** The window [refresh] leaves when the probe has returned [active]. *)
Definition refreshed (active : gset str) (w : MainWindow) : MainWindow :=
  set_status_label (active_text active) (set_states active w).

End Attempt.

(** ** The scan and what is kept of it *)

(** A path whose stem the pattern accepts. *)
Definition valid_path (path : str) : Prop :=
  Re.match_ VALID_IFACE_PATTERN (PathLib.stem path).

(** An entry of the directory that [glob("*.conf")] yields. *)
Definition is_conf (entry : str) : Prop := PathLib.glob_star (lit ".conf") entry.

Section Invariants.
Context {World : Type} `{!OS World}.

(** The paths both scans read, in the order they are visited. *)
Definition conf_paths (s : State World) : list str :=
  sorted (filter is_conf (listdir (world s) (app_dir (win s)))).

(** A computation that keeps what the window has of the scan and does not
    read the directory again. *)
Definition quiet {A} (h : M World A) : Prop :=
  ∀ s r s', h s = (r, s') →
    scanned (win s') = scanned (win s)
    ∧ ∃ evs, trace s' = trace s ++ evs ∧ Forall (λ e, is_glob e = false) evs.

(** The gate is closed: nothing is offered, and no command but the probe
    has been run. *)
Definition gate_closed (a : App World) : Prop :=
  cards_layout (win (state a)) = []
  ∧ ∀ argv cwd, EvRun argv cwd ∈ trace (state a) → argv = probe_cmd.

End Invariants.

(** ** Scenarios in the simulated system *)

Module Scenario.

Definition files : list str := [lit "wg0.conf"; lit "home.conf"; lit "office.conf"].

(** Nothing is up. *)
Definition idle : Sim.World := Sim.desktop files.

(** [home] is up. *)
Definition home_up : Sim.World := Sim.set_active [lit "home"] (Sim.desktop files).

(** [wg-quick] is not installed. *)
Definition no_wg_quick : Sim.World := Sim.without_wg_quick (Sim.desktop files).


(** [wg] is not installed. *)
Definition no_wg : Sim.World :=
  {| Sim.dir := Sim.dir idle; Sim.entries := files; Sim.active := [];
     Sim.has_wg := false; Sim.has_wg_quick := true; Sim.euid := 1000;
     Sim.pkexec := None |}.

(** The configuration of [home] was deleted after the window was built. *)
Definition home_deleted : Sim.World :=
  Sim.set_entries [lit "wg0.conf"; lit "office.conf"] idle.

(** The three files of the specification's example. *)
Definition the_three : list str :=
  [lit "wg0.conf"; lit "office vpn.conf"; lit "home.conf"].

(** The directory of the specification's example, and the same directory
    once the invalid file has been renamed. *)
Definition with_invalid : Sim.World := Sim.desktop the_three.
Definition renamed : Sim.World :=
  Sim.desktop [lit "wg0.conf"; lit "office.conf"; lit "home.conf"].

(** A file whose stem ends with a line feed. *)
Definition newline_name : str := lit "wg0" ++ LF.
Definition with_newline : Sim.World := Sim.desktop [newline_name ++ lit ".conf"].

(** The state the probe leaves. *)
Definition probed (s : State Sim.World) : State Sim.World :=
  with_world (subprocess_run probe_cmd None (world s)).2 (record [EvRun probe_cmd None] s).

(** The window is built while [home] is up. *)
Definition at_home : State Sim.World := Sim.started home_up.

(** The window is built while nothing is up. *)
Definition at_rest : State Sim.World := Sim.started idle.

(** The window is built, then the configuration of [home] is deleted. *)
Definition after_delete : State Sim.World := with_world home_deleted at_rest.


(** The window is built by an unprivileged user, with [pkexec], where
    [wg-quick] is missing. *)
Definition behind_pkexec : State Sim.World := Sim.started no_wg_quick.

(** The window is built while the invalid file is there; the file is then
    renamed, and the timer fires. *)
Definition after_rename : App Sim.World :=
  dispatch refresh (with_world renamed (state (main with_invalid))).

(** The state in which [__init__] scans the directory. *)
Definition blank (w : Sim.World) : State Sim.World :=
  {| world := w; win := new_window (Sim.dir w); trace := [] |}.

End Scenario.

(** ** Further notions *)

(** The dictionary [cards] is consistent with the store and the layout:
    its keys are distinct, so are the cards it refers to, each key is the
    name of its card, which is in the layout, and the name of every card
    of the layout is a key. *)
Definition cards_wf (w : MainWindow) : Prop :=
  NoDup (cards w).*1
  ∧ NoDup (cards w).*2
  ∧ (∀ k r, (k, r) ∈ cards w →
       (name <$> widgets w) !! r = Some k ∧ ItemWidget r ∈ cards_layout w)
  ∧ (∀ r n, ItemWidget r ∈ cards_layout w →
       (name <$> widgets w) !! r = Some n → n ∈ (cards w).*1).


(** The window [load_configs] makes of a new window for the paths
    [paths]. *)
Definition loaded (dir : str) (paths : list str) : MainWindow :=
  add_stretch (foldl load_config (clear_cards (new_window dir)) paths).

(** The scan of [__init__]. *)
Definition glob_event (dir : str) : Event := EvGlob dir (lit "*" ++ lit ".conf").

(** ** More scenarios *)

(** A system in which no command can be started: [subprocess.run] raises
    [PermissionError] whatever it is given. *)
Module Locked.

Inductive World := locked.

Definition denied : PyExc :=
  OtherException (lit "[Errno 13] Permission denied: 'wg'").

#[global] Instance os : OS World := {|
  script_dir _ := lit "/opt/wirewarden";
  listdir _ _ := [lit "home.conf"];
  path_exists _ _ := true;
  geteuid _ := 1000%Z;
  which _ _ := None;
  subprocess_run _ _ w := (Failed denied, w);
|}.

(** A window with nothing on it, in that system. *)
Definition bare : State World :=
  {| world := locked; win := new_window (lit "/opt/wirewarden"); trace := [] |}.

End Locked.

Module Tour.

(** The window is built while nothing is up, and UP is clicked on the
    card of [home]. *)
Definition home_card : IfaceCard :=
  {| name := lit "home"; up_btn_enabled := true; down_btn_enabled := false |}.

Definition clicked_home : App Sim.World :=
  dispatch (bring_up (name home_card)) (state (main Scenario.idle)).

(** The command that click runs. *)
Definition up_home : list str :=
  [lit "/usr/bin/pkexec"; lit "wg-quick"; lit "up"; lit "/opt/wirewarden/home.conf"].

End Tour.

(** * Proofs *)

(** ** Facts about the string model *)

Lemma in_charset_iface c : Re.in_charset iface_charset c = iface_char c.
Proof.
  unfold Re.in_charset, iface_charset, iface_char; simpl.
  apply eq_iff_eq_true.
  rewrite !orb_true_iff, !andb_true_iff, !N.leb_le, !N.eqb_eq. lia.
Qed.

Lemma forallb_iface body :
  forallb (Re.in_charset iface_charset) body = forallb iface_char body.
Proof.
  induction body as [|c body IH]; [done|].
  cbn [forallb]. by rewrite IH, in_charset_iface.
Qed.

Lemma repeat0_spec cs k pos s :
  Re.repeat0 cs k pos s = true ↔
  ∃ pre post, s = pre ++ post ∧ forallb (Re.in_charset cs) pre = true
              ∧ k (pos + length pre)%nat post = true.
Proof.
  revert pos. induction s as [|c s IH]; intros pos; simpl.
  - split.
    + intros Hk. exists [], []. simpl. by rewrite Nat.add_0_r.
    + intros (pre & post & Hs & _ & Hk).
      symmetry in Hs. apply app_eq_nil in Hs as [-> ->].
      simpl in Hk. by rewrite Nat.add_0_r in Hk.
  - rewrite orb_true_iff, andb_true_iff, IH. split.
    + intros [[Hc (pre & post & -> & Hpre & Hk)] | Hk].
      * exists (c :: pre), post. simpl. rewrite Hc, Hpre.
        split_and!; [done..|]. rewrite <- Hk. f_equal. lia.
      * exists [], (c :: s). simpl. by rewrite Nat.add_0_r.
    + intros (pre & post & Hs & Hpre & Hk). destruct pre as [|c' pre]; simpl in *.
      * right. subst post. by rewrite Nat.add_0_r in Hk.
      * left. injection Hs as <- ->. apply andb_true_iff in Hpre as [Hc Hpre].
        split; [done|]. exists pre, post.
        split_and!; [done..|]. rewrite <- Hk. f_equal. lia.
Qed.

Lemma forallb_iface_no_LF body :
  forallb iface_char body = true → 0x0A ∉ body.
Proof.
  intros H Hin. rewrite forallb_forall in H.
  apply list_elem_of_In in Hin. by apply H in Hin.
Qed.

(** What [VALID_IFACE_PATTERN.match] accepts: a non-empty run of characters
    of the set, and then the end of the string or one line feed that ends
    the string. *)
Lemma valid_iface_match s :
  Re.match_ VALID_IFACE_PATTERN s = true ↔
  ∃ body, body ≠ [] ∧ forallb iface_char body = true ∧ (s = body ∨ s = body ++ LF).
Proof.
  destruct s as [|c s].
  - split; [done|]. intros (body & Hne & _ & [H|H]).
    + by subst.
    + symmetry in H. apply app_eq_nil in H as [_ H]. discriminate.
  - change (Re.match_ VALID_IFACE_PATTERN (c :: s))
      with (Re.in_charset iface_charset c
            && Re.repeat0 iface_charset (λ _ r, Re.at_end r && true) 1 s).
    rewrite andb_true_iff, repeat0_spec, in_charset_iface. split.
    + intros (Hc & pre & post & -> & Hpre & Hend).
      rewrite andb_true_r in Hend.
      exists (c :: pre). split; [done|]. split.
      { cbn [forallb]. by rewrite Hc, <- forallb_iface, Hpre. }
      destruct post as [|d [|? ?]]; simpl in Hend; try done.
      * left. by rewrite app_nil_r.
      * right. apply N.eqb_eq in Hend. by subst.
    + intros (body & Hne & Hall & Hs).
      destruct body as [|b body]; [done|]. simpl in Hall.
      apply andb_true_iff in Hall as [Hb Hall].
      assert (forallb (Re.in_charset iface_charset) body = true) as Hall'.
      { by rewrite forallb_iface. }
      destruct Hs as [Hs|Hs]; simpl in Hs; injection Hs as -> ->.
      * split; [done|]. exists body, []. by rewrite app_nil_r.
      * split; [done|]. by exists body, LF.
Qed.

(** *** The order of strings and [sorted] *)

Lemma leb_refl a : leb a a = true.
Proof.
  induction a as [|x a IH]; [done|]. simpl.
  by rewrite N.eqb_refl, IH, orb_true_r.
Qed.

Lemma leb_cons x a y b :
  leb (x :: a) (y :: b) = true ↔ x < y ∨ (x = y ∧ leb a b = true).
Proof.
  simpl. by rewrite orb_true_iff, andb_true_iff, N.ltb_lt, N.eqb_eq.
Qed.

Lemma leb_total a b : leb a b = true ∨ leb b a = true.
Proof.
  revert b. induction a as [|x a IH]; intros [|y b]; try (by left); try (by right).
  rewrite !leb_cons. destruct (IH b); destruct (N.lt_trichotomy x y) as [?|[?|?]];
    subst; auto.
Qed.

Lemma leb_trans a b c : leb a b = true → leb b c = true → leb a c = true.
Proof.
  revert b c. induction a as [|x a IH]; intros [|y b] [|z c]; try done.
  rewrite !leb_cons. intros [?|[-> ?]] [?|[-> ?]]; eauto with lia.
Qed.

Lemma leb_antisym a b : leb a b = true → leb b a = true → a = b.
Proof.
  revert b. induction a as [|x a IH]; intros [|y b]; try done.
  rewrite !leb_cons. intros [?|[-> ?]] [?|[? ?]]; try lia.
  f_equal. by apply IH.
Qed.

#[global] Instance le_total : Total le.
Proof. intros a b. apply leb_total. Qed.

#[global] Instance le_trans : Transitive le.
Proof. intros a b c. apply leb_trans. Qed.

#[global] Instance le_antisymm : AntiSymm (=) le.
Proof. intros a b. apply leb_antisym. Qed.

Lemma sorted_Sorted xs : Sorted le (sorted xs).
Proof. apply (Sorted_merge_sort le). Qed.

Lemma sorted_Permutation xs : sorted xs ≡ₚ xs.
Proof. apply (merge_sort_Permutation le). Qed.

Lemma elem_of_sorted x xs : x ∈ sorted xs ↔ x ∈ xs.
Proof. by rewrite sorted_Permutation. Qed.

(** The sorted list depends on the elements only, not on the order they
    are given in. *)
Lemma sorted_unique xs ys : xs ≡ₚ ys → sorted xs = sorted ys.
Proof.
  intros Hp. apply (Sorted_unique le); try apply sorted_Sorted.
  by rewrite !sorted_Permutation.
Qed.

(** *** [join] *)

Lemma join_infix sep x parts :
  x ∈ parts → ∃ pre post, join sep parts = pre ++ x ++ post.
Proof.
  induction parts as [|p parts IH]; [by intros ?%elem_of_nil|].
  intros [->|Hin]%elem_of_cons.
  - destruct parts as [|q parts].
    + exists [], []. simpl. by rewrite app_nil_r.
    + exists [], (sep ++ join sep (q :: parts)). done.
  - destruct (IH Hin) as (pre & post & Heq).
    destruct parts as [|q parts]; [by apply elem_of_nil in Hin|].
    exists (p ++ sep ++ pre), post.
    change (join sep (p :: q :: parts)) with (p ++ sep ++ join sep (q :: parts)).
    rewrite Heq. by rewrite <- !app_assoc.
Qed.

(** *** [strip] *)


Lemma lstrip_spec s :
  ∃ l, s = l ++ lstrip s ∧ all_space l
       ∧ ∀ c, head (lstrip s) = Some c → is_space c = false.
Proof.
  induction s as [|c s (l & Hs & Hl & Hh)]; simpl.
  - by exists [].
  - destruct (is_space c) eqn:Hc.
    + exists (c :: l). split; [by rewrite Hs at 1|]. split; [|done].
      unfold all_space. simpl. by rewrite Hc.
    + exists []. split_and!; [done..|]. simpl. by intros ? [= <-].
Qed.

Lemma all_space_reverse s : all_space s → all_space (reverse s).
Proof.
  unfold all_space. rewrite !forallb_forall. intros H c Hin.
  apply H. rewrite <- list_elem_of_In in Hin |- *.
  by rewrite elem_of_reverse in Hin.
Qed.

Lemma rstrip_spec s :
  ∃ r, s = rstrip s ++ r ∧ all_space r
       ∧ ∀ c, last (rstrip s) = Some c → is_space c = false.
Proof.
  unfold rstrip. destruct (lstrip_spec (reverse s)) as (l & Hs & Hl & Hh).
  exists (reverse l). split_and!.
  - rewrite <- reverse_app, <- Hs. by rewrite reverse_involutive.
  - by apply all_space_reverse.
  - intros c. rewrite last_reverse. apply Hh.
Qed.

Lemma lstrip_rstrip_head s c :
  (∀ d, head s = Some d → is_space d = false) →
  head (rstrip s) = Some c → is_space c = false.
Proof.
  intros Hs. destruct (rstrip_spec s) as (r & Heq & _ & _).
  destruct (rstrip s) as [|d t]; [done|]. intros [= ->].
  apply Hs. by rewrite Heq.
Qed.

(** [strip] removes a run of whitespace from each end, and what is left
    neither starts nor ends with whitespace. *)
Lemma strip_spec s :
  ∃ l r, s = l ++ strip s ++ r ∧ all_space l ∧ all_space r
         ∧ (∀ c, head (strip s) = Some c → is_space c = false)
         ∧ (∀ c, last (strip s) = Some c → is_space c = false).
Proof.
  unfold strip. destruct (lstrip_spec s) as (l & Hs & Hl & Hh).
  destruct (rstrip_spec (lstrip s)) as (r & Hs' & Hr & Hla).
  exists l, r. split_and!; try done.
  - by rewrite <- Hs'.
  - intros c. by apply lstrip_rstrip_head.
Qed.

(** *** [split] *)

Lemma no_space_cons c s : no_space (c :: s) ↔ is_space c = false ∧ no_space s.
Proof.
  unfold no_space. simpl. rewrite andb_true_iff, negb_true_iff. done.
Qed.

Lemma no_space_app a b : no_space (a ++ b) ↔ no_space a ∧ no_space b.
Proof. unfold no_space. by rewrite forallb_app, andb_true_iff. Qed.

Lemma no_space_reverse a : no_space a → no_space (reverse a).
Proof.
  unfold no_space. rewrite !forallb_forall. intros H c Hin. apply H.
  rewrite <- list_elem_of_In in Hin |- *. by rewrite elem_of_reverse in Hin.
Qed.

Lemma reverse_cons_ne {A} (x : A) l : reverse (x :: l) ≠ [].
Proof. rewrite reverse_cons. by intros [_ ?]%app_eq_nil. Qed.

(** The elements of [split_from tok s]: the token that [tok] starts, and
    the tokens that start after a whitespace of [s]. *)
Lemma elem_of_split_from x tok s :
  x ∈ split_from tok s ↔
    (x ≠ [] ∧ ∃ run rest, s = run ++ rest ∧ no_space run
       ∧ (∀ c, head rest = Some c → is_space c = true)
       ∧ x = reverse tok ++ run)
    ∨ (x ≠ [] ∧ no_space x ∧ ∃ pre post, s = pre ++ x ++ post
       ∧ (∃ c, last pre = Some c ∧ is_space c = true)
       ∧ (∀ c, head post = Some c → is_space c = true)).
Proof.
  revert tok. induction s as [|c s IH]; intros tok.
  - simpl. split.
    + intros Hx. left. destruct tok as [|t tok]; [by apply elem_of_nil in Hx|].
      apply list_elem_of_singleton in Hx as ->.
      split; [apply reverse_cons_ne|]. exists [], [].
      split_and!; try done. by rewrite app_nil_r.
    + intros [(Hne & run & rest & Hs & _ & _ & ->)
             | (Hne & _ & pre & post & Hs & (c & Hl & _) & _)].
      * symmetry in Hs. apply app_eq_nil in Hs as [-> ->].
        rewrite app_nil_r in *. destruct tok; [done|].
        by apply list_elem_of_singleton.
      * symmetry in Hs. apply app_eq_nil in Hs as [-> _]. done.
  - cbn [split_from]. destruct (is_space c) eqn:Hc.
    + assert (x ∈ match tok with
                  | [] => split_from [] s
                  | _ :: _ => reverse tok :: split_from [] s
                  end ↔ (tok ≠ [] ∧ x = reverse tok) ∨ x ∈ split_from [] s) as ->.
      { destruct tok as [|t tok].
        - split; [by right|]. by intros [[? _]|?].
        - rewrite elem_of_cons. split.
          + intros [->|?]; [by left|by right].
          + intros [[_ ->]|?]; [by left|by right]. }
      rewrite IH. split.
      * intros [[Htok ->]
               | [(Hne & run & rest & -> & Hrun & Hrest & ->)
                 | (Hne & Hns & pre & post & -> & (d & Hl & Hd) & Hpost)]].
        -- left. split; [destruct tok; [done|apply reverse_cons_ne]|].
           exists [], (c :: s).
           split_and!; try done.
           ++ simpl. by intros ? [= <-].
           ++ by rewrite app_nil_r.
        -- right. rewrite reverse_nil, app_nil_l in *.
           split_and!; try done. exists [c], rest. split_and!; try done.
           by exists c.
        -- right. split_and!; try done. exists (c :: pre), post.
           split_and!; try done. exists d. split; [|done].
           destruct pre; [done|]. by rewrite last_cons_cons.
      * intros [(Hne & run & rest & Hs & Hrun & Hrest & ->)
               | (Hne & Hns & pre & post & Hs & (d & Hl & Hd) & Hpost)].
        -- destruct run as [|r run].
           ++ left. rewrite app_nil_r in *. split; [|done]. by intros ->.
           ++ simpl in Hs. injection Hs as <- ->.
              apply no_space_cons in Hrun as [? _]. congruence.
        -- destruct pre as [|p pre]; [done|]. simpl in Hs. injection Hs as <- ->.
           right. destruct pre as [|p' pre'].
           ++ left. split; [done|]. exists x, post. by split_and!.
           ++ right. split_and!; try done. exists (p' :: pre'), post.
              split_and!; try done. exists d. by rewrite last_cons_cons in Hl.
    + rewrite IH. split.
      * intros [(Hne & run & rest & -> & Hrun & Hrest & ->)
               | (Hne & Hns & pre & post & -> & (d & Hl & Hd) & Hpost)].
        -- left. split; [done|]. exists (c :: run), rest. split_and!; try done.
           ++ by apply no_space_cons.
           ++ by rewrite reverse_cons, <- app_assoc.
        -- right. split_and!; try done. exists (c :: pre), post.
           split_and!; try done. exists d. split; [|done].
           destruct pre; [done|]. by rewrite last_cons_cons.
      * intros [(Hne & run & rest & Hs & Hrun & Hrest & ->)
               | (Hne & Hns & pre & post & Hs & (d & Hl & Hd) & Hpost)].
        -- destruct run as [|r run].
           ++ simpl in Hs. subst rest. specialize (Hrest c eq_refl). congruence.
           ++ simpl in Hs. injection Hs as <- ->.
              apply no_space_cons in Hrun as [_ Hrun].
              left. split; [done|]. exists run, rest. split_and!; try done.
              by rewrite reverse_cons, <- app_assoc.
        -- destruct pre as [|p pre]; [done|]. simpl in Hs. injection Hs as <- ->.
           destruct pre as [|p' pre'].
           ++ simpl in Hl. injection Hl as <-. congruence.
           ++ right. split_and!; try done. exists (p' :: pre'), post.
              split_and!; try done. exists d. by rewrite last_cons_cons in Hl.
Qed.

(** [s.split()] holds exactly the whitespace-separated tokens of [s]. *)
Lemma elem_of_split x s : x ∈ split s ↔ is_token x s.
Proof.
  unfold split, is_token. rewrite elem_of_split_from. split.
  - intros [(Hne & run & rest & -> & Hrun & Hrest & ->)
           | (Hne & Hns & pre & post & -> & (d & Hl & Hd) & Hpost)].
    + rewrite reverse_nil, app_nil_l in *. split_and!; try done.
      exists [], rest. by split_and!.
    + split_and!; try done. exists pre, post. split_and!; try done.
      intros c. rewrite Hl. by intros [= <-].
  - intros (Hne & Hns & pre & post & -> & Hpre & Hpost).
    destruct (last pre) as [d|] eqn:Hl.
    + right. split_and!; try done. exists pre, post. split_and!; try done.
      exists d. split; [done|]. by apply Hpre.
    + apply last_None in Hl as ->. left. split; [done|].
      exists x, post. by split_and!.
Qed.

Lemma split_from_all_space ws : all_space ws → split_from [] ws = [].
Proof.
  unfold all_space. induction ws as [|c ws IH]; [done|]. simpl.
  intros [Hc Hws]%andb_true_iff. rewrite Hc. by apply IH.
Qed.

Lemma split_from_app_space tok s ws :
  all_space ws → split_from tok (s ++ ws) = split_from tok s.
Proof.
  intros Hws. revert tok. induction s as [|c s IH]; intros tok.
  - simpl. destruct ws as [|w ws]; [done|].
    unfold all_space in Hws. simpl in Hws.
    apply andb_true_iff in Hws as [Hw Hws]. simpl. rewrite Hw.
    rewrite (split_from_all_space ws Hws). by destruct tok.
  - simpl. rewrite !IH. done.
Qed.

Lemma split_lstrip s : split (lstrip s) = split s.
Proof.
  unfold split. induction s as [|c s IH]; [done|]. simpl.
  destruct (is_space c) eqn:Hc; [done|]. simpl. by rewrite Hc.
Qed.

(** Stripping first does not change the tokens. *)
Lemma split_strip s : split (strip s) = split s.
Proof.
  unfold strip. rewrite <- (split_lstrip s).
  destruct (rstrip_spec (lstrip s)) as (r & Heq & Hr & _).
  rewrite Heq at 2. unfold split. by rewrite split_from_app_space.
Qed.

(** ** The probe *)

Section Probe.
Context {World : Type} `{!OS World}.
Implicit Types s : State World.

(** [get_active_ifaces] by the outcome of the command. *)
Lemma get_active_ifaces_unfold s :
  get_active_ifaces s =
    let '(o, w') := subprocess_run probe_cmd None (world s) in
    let s' := with_world w' (record [EvRun probe_cmd None] s) in
    match o with
    | Completed p =>
        (Return (if bool_decide (returncode p ≠ 0%Z) then ∅
                 else list_to_set (split (strip (stdout p)))), s')
    | Failed e => if is_FileNotFoundError e then (Return ∅, s') else (Raise e, s')
    end.
Proof.
  unfold get_active_ifaces, try_except, bind, run.
  destruct (subprocess_run probe_cmd None (world s)) as [[p|e] w'].
  - by destruct (bool_decide (returncode p ≠ 0%Z)).
  - done.
Qed.

(** The probe runs one command and leaves the window alone, whatever
    the outcome. *)
Lemma get_active_ifaces_frame s r s' :
  get_active_ifaces s = (r, s') →
  win s' = win s ∧ trace s' = trace s ++ [EvRun probe_cmd None]
  ∧ world s' = (subprocess_run probe_cmd None (world s)).2.
Proof.
  rewrite get_active_ifaces_unfold.
  destruct (subprocess_run probe_cmd None (world s)) as [[p|e] w']; simpl.
  - by intros [= <- <-].
  - destruct (is_FileNotFoundError e); by intros [= <- <-].
Qed.

Lemma elem_of_sorted_elements (A : gset str) x :
  x ∈ sorted (elements A) ↔ x ∈ A.
Proof. by rewrite elem_of_sorted, elem_of_elements. Qed.

End Probe.

(** ** The probe and the admission checks, as specified *)

Section Admission.
Context {World : Type} `{!OS World}.
Implicit Types s : State World.

(** C7. The probe returns the empty set, and raises nothing, when [wg] is
    not found or exits with a status other than zero; when [wg] exits
    with status zero it returns exactly the whitespace-separated tokens
    of the standard output, so none for an empty output. Either way the
    one command run is the probe. *)
Theorem get_active_ifaces_spec s o w' :
  subprocess_run probe_cmd None (world s) = (o, w') →
  let s' := with_world w' (record [EvRun probe_cmd None] s) in
  (∀ m, o = Failed (FileNotFoundError m) →
        get_active_ifaces s = (Return ∅, s'))
  ∧ (∀ p, o = Completed p → returncode p ≠ 0%Z →
          get_active_ifaces s = (Return ∅, s'))
  ∧ (∀ p, o = Completed p → returncode p = 0%Z →
          ∃ A : gset str,
            get_active_ifaces s = (Return A, s')
            ∧ (∀ x, x ∈ A ↔ is_token x (stdout p))
            ∧ (stdout p = [] → A = ∅)).
Proof.
  intros Hrun s'. rewrite get_active_ifaces_unfold, Hrun. fold s'.
  split_and!.
  - by intros m ->.
  - intros p -> Hrc. by rewrite bool_decide_true.
  - intros p -> Hrc. rewrite bool_decide_false by (by intros []).
    eexists. split; [done|]. split.
    + intros x. by rewrite elem_of_list_to_set, split_strip, elem_of_split.
    + by intros ->.
Qed.

(** C1. When the fresh probe finds some interface up and the target is
    not among them, [bring_up] shows the warning that names every active
    interface and returns; the one command it has run is the probe. *)
Theorem bring_up_conflict (name : str) s s1 (active : gset str) :
  get_active_ifaces s = (Return active, s1) →
  active ≠ ∅ →
  name ∉ active →
  let text := conflict_text active name in
  bring_up name s
    = (Return tt, record [EvMessageBox Warning (lit "Disconnect first") text] s1)
  ∧ trace (bring_up name s).2
    = trace s ++ [EvRun probe_cmd None;
                  EvMessageBox Warning (lit "Disconnect first") text]
  ∧ (∀ x, x ∈ active → occurs_in x text).
Proof.
  intros Hprobe Hne Hnotin text.
  assert (bring_up name s
    = (Return tt, record [EvMessageBox Warning (lit "Disconnect first") text] s1))
    as Hup.
  { unfold bring_up, bind. rewrite Hprobe.
    rewrite !bool_decide_true by done. reflexivity. }
  split_and!; [done| |].
  - rewrite Hup. simpl.
    destruct (get_active_ifaces_frame _ _ _ Hprobe) as (_ & -> & _).
    by rewrite <- app_assoc.
  - intros x Hx. unfold text, conflict_text, occurs_in.
    destruct (join_infix (lit ", ") x (sorted (elements active)))
      as (pre & post & ->); [by apply elem_of_sorted_elements|].
    exists (lit "Another WireGuard interface is active: " ++ pre),
           (post ++ lit "." ++ LF ++ lit "Disconnect it before bringing up "
                 ++ name ++ lit ".").
    by rewrite <- !app_assoc.
Qed.

(** C5. A request that asks for what the fresh probe already reports does
    nothing more: [bring_up] of an active interface and [bring_down] of
    an inactive one return with the state the probe left, in which the
    one command run is the probe and the window is untouched. *)
Theorem idempotent_requests (name : str) s s1 (active : gset str) :
  get_active_ifaces s = (Return active, s1) →
  (name ∈ active → bring_up name s = (Return tt, s1))
  ∧ (name ∉ active → bring_down name s = (Return tt, s1))
  ∧ trace s1 = trace s ++ [EvRun probe_cmd None]
  ∧ win s1 = win s.
Proof.
  intros Hprobe.
  destruct (get_active_ifaces_frame _ _ _ Hprobe) as (Hwin & Htrace & _).
  split_and!; try done.
  - intros Hin. unfold bring_up, bind. rewrite Hprobe.
    rewrite (bool_decide_false (name ∉ active)) by (by intros []).
    rewrite andb_false_r. rewrite bool_decide_true by done. reflexivity.
  - intros Hnotin. unfold bring_down, bind. rewrite Hprobe.
    rewrite bool_decide_true by done. reflexivity.
Qed.

End Admission.

(** ** The transition itself: [run_wg_quick] *)

Section Transition.
Context {World : Type} `{!OS World}.
Implicit Types s : State World.

Lemma record_record evs evs' s :
  record evs' (record evs s) = record (evs ++ evs') s.
Proof. unfold record. simpl. by rewrite <- app_assoc. Qed.

Lemma record_nil s : record [] s = s.
Proof. destruct s. unfold record. simpl. by rewrite app_nil_r. Qed.

(** [refresh] when the probe returns. *)
Lemma refresh_returns s (active : gset str) s2 :
  get_active_ifaces s = (Return active, s2) →
  refresh s = (Return tt, with_win (refreshed active (win s2)) s2).
Proof.
  intros Hprobe. unfold refresh, bind. rewrite Hprobe. reflexivity.
Qed.

(** [refresh] when the probe raises. *)
Lemma refresh_raises s e s2 :
  get_active_ifaces s = (Raise e, s2) → refresh s = (Raise e, s2).
Proof. intros Hprobe. unfold refresh, bind. by rewrite Hprobe. Qed.

(** The file is missing: a dialog, and nothing is run. *)
Lemma run_wg_quick_missing (name : str) up s :
  path_exists (world s) (conf_path (win s) name) = false →
  run_wg_quick name up s
    = (Return tt,
       record [EvExists (conf_path (win s) name);
               EvMessageBox Critical (lit "Error")
                 (lit "Config not found: " ++ conf_path (win s) name)] s).
Proof.
  intros Hex.
  unfold run_wg_quick, bind, get_win, message_box, log, read_world, record.
  cbn [world win trace]. rewrite Hex. cbn [negb world win trace].
  rewrite <- ?app_assoc. reflexivity.
Qed.

(** The command ran to its end: [refresh] follows, after the dialog of a
    failure if the exit status is not zero. *)
Lemma run_wg_quick_completed (name : str) up s p w' :
  path_exists (world s) (conf_path (win s) name) = true →
  subprocess_run (cmd_of name up s) (Some (app_dir (win s))) (world s)
    = (Completed p, w') →
  run_wg_quick name up s
    = refresh (record (failure_dialog p) (launched name up w' s)).
Proof.
  intros Hex Hrun.
  unfold run_wg_quick, bind, get_win, message_box, log, read_world,
    try_except, modify_win, run, ret, with_win, with_world, record.
  cbn [world win trace]. rewrite Hex. cbn [negb world win trace].
  unfold cmd_of in Hrun. rewrite Hrun.
  unfold failure_dialog, launched, cmd_of.
  destruct (bool_decide (returncode p ≠ 0%Z)); cbn [world win trace];
    rewrite <- ?app_assoc, ?app_nil_r; reflexivity.
Qed.

(** The command could not be started: a dialog, and [run_wg_quick]
    returns from the handler. *)
Lemma run_wg_quick_not_started (name : str) up s e w' :
  path_exists (world s) (conf_path (win s) name) = true →
  subprocess_run (cmd_of name up s) (Some (app_dir (win s))) (world s)
    = (Failed e, w') →
  is_Exception e = true →
  run_wg_quick name up s
    = (Return tt,
       record [EvMessageBox Critical (lit "Execution failed") (exc_str e)]
              (launched name up w' s)).
Proof.
  intros Hex Hrun He.
  unfold run_wg_quick, bind, get_win, message_box, log, read_world,
    try_except, modify_win, run, ret, with_win, with_world, record.
  cbn [world win trace]. rewrite Hex. cbn [negb world win trace].
  unfold cmd_of in Hrun. rewrite Hrun, He.
  unfold launched, cmd_of. cbn [world win trace].
  rewrite <- ?app_assoc. reflexivity.
Qed.


(** C9. When the command of a transition exits with a status other than
    zero, the warning [run_wg_quick] shows carries the standard error
    stripped if that is not empty, else the standard output stripped if
    that is not empty, else the fixed text. *)
Theorem failure_message (name : str) up s p w' :
  path_exists (world s) (conf_path (win s) name) = true →
  subprocess_run (cmd_of name up s) (Some (app_dir (win s))) (world s)
    = (Completed p, w') →
  returncode p ≠ 0%Z →
  ∃ msg,
    run_wg_quick name up s
      = refresh (record [EvMessageBox Warning (lit "wg-quick error") msg]
                        (launched name up w' s))
    ∧ (strip (stderr p) ≠ [] → msg = strip (stderr p))
    ∧ (strip (stderr p) = [] → strip (stdout p) ≠ [] → msg = strip (stdout p))
    ∧ (strip (stderr p) = [] → strip (stdout p) = [] → msg = lit "wg-quick failed").
Proof.
  intros Hex Hrun Hrc. exists (failure_text p). split.
  - rewrite (run_wg_quick_completed name up s p w' Hex Hrun).
    unfold failure_dialog. by rewrite bool_decide_true.
  - unfold failure_text, or_.
    destruct (strip (stderr p)) as [|c err]; destruct (strip (stdout p)) as [|d out];
      by split_and!.
Qed.

(** C6. A request that passes the admission check (for [bring_up],
    nothing is up; for [bring_down], the target is up) and whose
    configuration file does not exist by then ends with the dialog that
    names the missing path: the file was looked for and no command but
    the probe was run. *)
Theorem missing_config (name : str) s s1 (active : gset str) :
  get_active_ifaces s = (Return active, s1) →
  path_exists (world s1) (conf_path (win s1) name) = false →
  let path := conf_path (win s1) name in
  let s' := record [EvExists path;
                    EvMessageBox Critical (lit "Error")
                      (lit "Config not found: " ++ path)] s1 in
  (active = ∅ → bring_up name s = (Return tt, s'))
  ∧ (name ∈ active → bring_down name s = (Return tt, s'))
  ∧ trace s' = trace s ++ [EvRun probe_cmd None; EvExists path;
                           EvMessageBox Critical (lit "Error")
                             (lit "Config not found: " ++ path)].
Proof.
  intros Hprobe Hex path s'.
  pose proof (run_wg_quick_missing name true s1 Hex) as Hup.
  pose proof (run_wg_quick_missing name false s1 Hex) as Hdown.
  split_and!.
  - intros ->. unfold bring_up, bind. rewrite Hprobe.
    rewrite (bool_decide_false (∅ ≠ ∅)) by (by intros []).
    rewrite (bool_decide_false (name ∈ ∅)) by set_solver.
    cbn [andb]. exact Hup.
  - intros Hin. unfold bring_down, bind. rewrite Hprobe.
    rewrite (bool_decide_false (name ∉ active)) by (by intros []).
    exact Hdown.
  - unfold s'. simpl.
    destruct (get_active_ifaces_frame _ _ _ Hprobe) as (_ & -> & _).
    by rewrite <- app_assoc.
Qed.

End Transition.

(** ** The scan of the directory *)

Lemma Sorted_filter {A} (R : relation A) `{!Transitive R}
    (P : A → Prop) `{!∀ x, Decision (P x)} l :
  Sorted R l → Sorted R (filter P l).
Proof.
  intros Hs. apply Sorted_StronglySorted in Hs; [|done].
  apply StronglySorted_Sorted.
  induction Hs as [|x l Hs IH Hx]; [constructor|].
  rewrite filter_cons. destruct (decide (P x)); [|done].
  constructor; [done|]. apply Forall_forall.
  intros y [_ Hy]%list_elem_of_filter. rewrite Forall_forall in Hx. by apply Hx.
Qed.

(** The cards [load_configs] adds for the paths [paths], one for each
    valid path, in order. *)
Lemma load_config_foldl paths w :
  let w' := foldl load_config w paths in
  let valid := filter valid_path paths in
  widgets w' = widgets w ++ (new_card ∘ PathLib.stem <$> valid)
  ∧ cards_layout w'
    = cards_layout w ++ (ItemWidget <$> seq (length (widgets w)) (length valid))
  ∧ app_dir w' = app_dir w ∧ status_label w' = status_label w
  ∧ timer w' = timer w.
Proof.
  revert w. induction paths as [|p paths IH]; intros w; simpl.
  - by rewrite !app_nil_r.
  - destruct (IH (load_config w p)) as (Hw & Hl & Hd & Hs & Ht).
    rewrite Hw, Hl, Hd, Hs, Ht. clear Hw Hl Hd Hs Ht IH.
    rewrite filter_cons. unfold load_config.
    destruct (decide (valid_path p)) as [Hv|Hv]; unfold valid_path in Hv.
    + apply Is_true_true in Hv. rewrite Hv. simpl.
      rewrite length_app, <- !app_assoc. simpl.
      by rewrite Nat.add_1_r.
    + apply Is_true_false in Hv. by rewrite Hv.
Qed.

Lemma omap_new_cards (ws new : list IfaceCard) :
  omap (λ it, r ← item_widget it; name <$> (ws ++ new) !! r)
       (ItemWidget <$> seq (length ws) (length new))
  = name <$> new.
Proof.
  revert ws. induction new as [|c new IH]; intros ws; [done|].
  simpl. rewrite lookup_app_r, Nat.sub_diag by done. simpl. f_equal.
  specialize (IH (ws ++ [c])). rewrite length_app, Nat.add_1_r in IH.
  by rewrite <- app_assoc in IH.
Qed.

Lemma omap_no_widget (f : nat → option str) (items : list LayoutItem) :
  omap (λ it, r ← item_widget it; f r) (filter (λ it, item_widget it = None) items)
  = [].
Proof.
  induction items as [|[r|] items IH]; [done| |].
  - by rewrite filter_cons, decide_False.
  - rewrite filter_cons, decide_True by done. done.
Qed.

Section Scan.
Context {World : Type} `{!OS World}.
Implicit Types s : State World.

Lemma sorted_glob_unfold s :
  sorted_glob (lit ".conf") s
  = (Return (conf_paths s),
     record [EvGlob (app_dir (win s)) (lit "*" ++ lit ".conf")] s).
Proof. reflexivity. Qed.

Lemma check_invalid_configs_unfold s :
  check_invalid_configs s
  = (Return (filter (λ p, ¬ valid_path p) (conf_paths s)),
     record [EvGlob (app_dir (win s)) (lit "*" ++ lit ".conf")] s).
Proof. reflexivity. Qed.

Lemma load_configs_unfold s :
  load_configs s
  = (Return tt,
     with_win (add_stretch (foldl load_config (clear_cards (win s)) (conf_paths s)))
       (record [EvGlob (app_dir (win s)) (lit "*" ++ lit ".conf")] s)).
Proof. reflexivity. Qed.

Lemma offered_load_configs s :
  offered (add_stretch (foldl load_config (clear_cards (win s)) (conf_paths s)))
  = PathLib.stem <$> filter valid_path (conf_paths s).
Proof.
  destruct (load_config_foldl (conf_paths s) (clear_cards (win s)))
    as (Hw & Hl & _).
  unfold offered, add_stretch. cbn [cards_layout widgets].
  rewrite Hw, Hl. cbn [clear_cards cards_layout widgets].
  rewrite !omap_app. rewrite omap_no_widget. simpl.
  rewrite <- (length_fmap (new_card ∘ PathLib.stem)), omap_new_cards.
  rewrite app_nil_r, <- list_fmap_compose. done.
Qed.

Lemma elem_of_conf_paths s f :
  f ∈ conf_paths s ↔
  f ∈ listdir (world s) (app_dir (win s)) ∧ endswith f (lit ".conf") = true.
Proof.
  unfold conf_paths. rewrite elem_of_sorted, list_elem_of_filter.
  unfold is_conf, PathLib.glob_star. rewrite Is_true_true. tauto.
Qed.

(** C8. The scan visits exactly the entries of the directory whose name
    ends with [.conf], in the order of their names, and splits them by
    the validator: [check_invalid_configs] returns the file names whose
    stem the pattern rejects, [load_configs] makes the cards of the
    stems it accepts, each list in the order of the file names. A
    directory that holds [wg0.conf], [office vpn.conf] and [home.conf],
    listed in any order, gives the cards [home], [wg0] and the invalid
    file name [office vpn.conf]. *)
Theorem scan_partitions s :
  let entries := listdir (world s) (app_dir (win s)) in
  ∃ invalid valid s1 s2,
    check_invalid_configs s = (Return invalid, s1)
    ∧ load_configs s = (Return tt, s2)
    ∧ offered (win s2) = PathLib.stem <$> valid
    ∧ (∀ f, f ∈ invalid ↔
            f ∈ entries ∧ endswith f (lit ".conf") = true
            ∧ Re.match_ VALID_IFACE_PATTERN (PathLib.stem f) = false)
    ∧ (∀ f, f ∈ valid ↔
            f ∈ entries ∧ endswith f (lit ".conf") = true
            ∧ Re.match_ VALID_IFACE_PATTERN (PathLib.stem f) = true)
    ∧ Sorted le invalid ∧ Sorted le valid
    ∧ valid ++ invalid ≡ₚ filter (λ f, endswith f (lit ".conf")) entries
    ∧ (entries ≡ₚ [lit "wg0.conf"; lit "office vpn.conf"; lit "home.conf"] →
         invalid = [lit "office vpn.conf"]
         ∧ PathLib.stem <$> valid = [lit "home"; lit "wg0"]).
Proof.
  intros entries.
  exists (filter (λ p, ¬ valid_path p) (conf_paths s)),
         (filter valid_path (conf_paths s)).
  eexists _, _. split; [apply check_invalid_configs_unfold|].
  split; [apply load_configs_unfold|].
  split; [apply offered_load_configs|].
  split_and!.
  - intros f. rewrite list_elem_of_filter, elem_of_conf_paths.
    unfold valid_path. rewrite Is_true_false. tauto.
  - intros f. rewrite list_elem_of_filter, elem_of_conf_paths.
    unfold valid_path. rewrite Is_true_true. tauto.
  - apply Sorted_filter; [apply _|apply sorted_Sorted].
  - apply Sorted_filter; [apply _|apply sorted_Sorted].
  - rewrite filter_app_complement. apply sorted_Permutation.
  - intros Hperm.
    assert (conf_paths s
            = sorted (filter is_conf
                [lit "wg0.conf"; lit "office vpn.conf"; lit "home.conf"])) as ->.
    { unfold conf_paths. apply sorted_unique. fold entries. by rewrite Hperm. }
    by vm_compute.
Qed.

End Scan.

(** ** The event loop *)

Lemma set_state_name b c : name (set_state b c) = name c.
Proof. by destruct b. Qed.

Lemma set_states_scanned (active : gset str) w :
  scanned (set_states active w) = scanned w.
Proof.
  unfold scanned, set_states, set_widgets. cbn [app_dir cards_layout cards widgets timer].
  f_equal. f_equal.
  generalize (widgets w). induction (cards w) as [|[k r] d IH]; intros ws; [done|].
  cbn [foldl]. rewrite IH. cbn [fst snd].
  rewrite (list_fmap_alter name _ id).
  - by rewrite list_alter_id.
  - apply Forall_forall. intros c _. apply set_state_name.
Qed.

Lemma set_status_label_scanned t w : scanned (set_status_label t w) = scanned w.
Proof. done. Qed.

Lemma refreshed_scanned (active : gset str) w : scanned (refreshed active w) = scanned w.
Proof. unfold refreshed. by rewrite set_status_label_scanned, set_states_scanned. Qed.

Lemma offered_scanned w w' : scanned w = scanned w' → offered w = offered w'.
Proof.
  unfold scanned, offered. intros [= _ Hl _ Hn _]. rewrite Hl. clear Hl.
  induction (cards_layout w') as [|it l IH]; [done|].
  cbn [omap list_omap]. rewrite IH.
  assert ((r ← item_widget it; name <$> widgets w !! r)
          = (r ← item_widget it; name <$> widgets w' !! r)) as ->; [|done].
  destruct it as [r|]; [|done]. cbn [item_widget mbind option_bind].
  by rewrite <- !list_lookup_fmap, Hn.
Qed.

Create HintDb quiet.

Section Loop.
Context {World : Type} `{!OS World}.
Implicit Types s : State World.
Implicit Types a : App World.

Lemma quiet_ret {A} (x : A) : quiet (World := World) (ret x).
Proof.
  intros s r s' [= <- <-]. split; [done|]. exists []. by rewrite app_nil_r.
Qed.

Lemma quiet_bind {A B} (h : M World A) (k : A → M World B) :
  quiet h → (∀ x, quiet (k x)) → quiet (World := World) (bind h k).
Proof.
  intros Hh Hk s r s'. unfold bind.
  destruct (h s) as [[x|e] s1] eqn:H1.
  - intros H2. destruct (Hh _ _ _ H1) as (Hs1 & evs1 & Ht1 & Hf1).
    destruct (Hk x _ _ _ H2) as (Hs2 & evs2 & Ht2 & Hf2).
    split; [congruence|]. exists (evs1 ++ evs2).
    split; [by rewrite Ht2, Ht1, app_assoc|by apply Forall_app].
  - intros [= <- <-]. by apply (Hh _ _ _ H1).
Qed.

Lemma quiet_try_except {A} (h : M World A) caught (k : PyExc → M World A) :
  quiet h → (∀ e, quiet (k e)) → quiet (World := World) (try_except h caught k).
Proof.
  intros Hh Hk s r s'. unfold try_except.
  destruct (h s) as [[x|e] s1] eqn:H1.
  - intros [= <- <-]. by apply (Hh _ _ _ H1).
  - destruct (Hh _ _ _ H1) as (Hs1 & evs1 & Ht1 & Hf1).
    destruct (caught e).
    + intros H2. destruct (Hk e _ _ _ H2) as (Hs2 & evs2 & Ht2 & Hf2).
      split; [congruence|]. exists (evs1 ++ evs2).
      split; [by rewrite Ht2, Ht1, app_assoc|by apply Forall_app].
    + intros [= <- <-]. split; [done|]. by exists evs1.
Qed.

Lemma quiet_log e : is_glob e = false → quiet (World := World) (log e).
Proof.
  intros He s r s' [= <- <-]. split; [done|]. exists [e].
  split; [done|]. by constructor.
Qed.

Lemma quiet_modify_win f :
  (∀ w, scanned (f w) = scanned w) → quiet (World := World) (modify_win f).
Proof.
  intros Hf s r s' [= <- <-]. split; [apply Hf|]. exists []. by rewrite app_nil_r.
Qed.

Lemma quiet_get_win : quiet (World := World) get_win.
Proof.
  intros s r s' [= <- <-]. split; [done|]. exists []. by rewrite app_nil_r.
Qed.

Lemma quiet_read_world {A} (f : World → A) : quiet (World := World) (read_world f).
Proof.
  intros s r s' [= <- <-]. split; [done|]. exists []. by rewrite app_nil_r.
Qed.

Lemma quiet_run argv cwd : quiet (World := World) (run argv cwd).
Proof.
  intros s r s'. unfold run.
  destruct (subprocess_run argv cwd (world s)) as [[p|e] w'];
    intros [= <- <-]; (split; [done|]); exists [EvRun argv cwd];
    (split; [done|]); by constructor.
Qed.

Lemma quiet_if {A} (b : bool) (h1 h2 : M World A) :
  quiet h1 → quiet h2 → quiet (World := World) (if b then h1 else h2).
Proof. by destruct b. Qed.

Hint Resolve quiet_ret quiet_log quiet_modify_win quiet_get_win
  quiet_read_world quiet_run set_status_label_scanned set_states_scanned : quiet.

Ltac quiet_step :=
  first [ apply quiet_bind; [|intros ?]
        | apply quiet_try_except; [|intros ?]
        | apply quiet_if
        | match goal with
          | |- quiet (match ?a with Some _ => _ | None => _ end) => destruct a
          end
        | by eauto with quiet ].

Lemma quiet_get_active_ifaces : quiet (World := World) get_active_ifaces.
Proof. unfold get_active_ifaces. repeat quiet_step. Qed.

Lemma quiet_refresh : quiet (World := World) refresh.
Proof.
  unfold refresh. apply quiet_bind; [apply quiet_get_active_ifaces|intros ?].
  repeat quiet_step.
Qed.

Lemma quiet_run_wg_quick (name : str) up : quiet (World := World) (run_wg_quick name up).
Proof.
  pose proof quiet_refresh.
  unfold run_wg_quick, message_box. repeat quiet_step.
Qed.

Lemma quiet_bring_up (name : str) : quiet (World := World) (bring_up name).
Proof.
  unfold bring_up, message_box.
  apply quiet_bind; [apply quiet_get_active_ifaces|intros ?].
  repeat (apply quiet_if); [by eauto with quiet..|apply quiet_run_wg_quick].
Qed.

Lemma quiet_bring_down (name : str) : quiet (World := World) (bring_down name).
Proof.
  unfold bring_down.
  apply quiet_bind; [apply quiet_get_active_ifaces|intros ?].
  apply quiet_if; [apply quiet_ret|apply quiet_run_wg_quick].
Qed.

(** What [refresh] adds to the trace: the probe. *)
Lemma refresh_trace s r s' :
  refresh s = (r, s') → trace s' = trace s ++ [EvRun probe_cmd None].
Proof.
  destruct (get_active_ifaces s) as [[A|e] s2] eqn:Hprobe.
  - rewrite (refresh_returns _ _ _ Hprobe). intros [= <- <-].
    by destruct (get_active_ifaces_frame _ _ _ Hprobe) as (_ & <- & _).
  - rewrite (refresh_raises _ _ _ Hprobe). intros [= <- <-].
    by destruct (get_active_ifaces_frame _ _ _ Hprobe) as (_ & <- & _).
Qed.

Lemma dispatch_state (h : M World unit) s :
  state (dispatch h s) = (h s).2.
Proof. unfold dispatch. by destruct (h s) as [[[]|e] s']. Qed.

(** Every event of the loop is quiet. *)
Lemma step_quiet a a' :
  step a a' →
  scanned (win (state a')) = scanned (win (state a))
  ∧ filter (λ e, is_glob e) (trace (state a'))
    = filter (λ e, is_glob e) (trace (state a)).
Proof.
  assert (∀ (h : M World unit) s, quiet h →
    scanned (win (state (dispatch h s))) = scanned (win s)
    ∧ filter (λ e, is_glob e) (trace (state (dispatch h s)))
      = filter (λ e, is_glob e) (trace s)) as Hq.
  { intros h s Hh. rewrite dispatch_state.
    destruct (h s) as [r s'] eqn:Heq. cbn [snd].
    destruct (Hh _ _ _ Heq) as (Hs & evs & -> & Hevs). split; [done|].
    rewrite filter_app.
    assert (filter (λ e, is_glob e) evs = []) as ->; [|by rewrite app_nil_r].
    induction Hevs as [|e evs He _ IH]; [done|].
    rewrite filter_cons, decide_False; [done|]. rewrite He. by intros []. }
  intros [a0 ms _ _|a0 ref c _ _ _ _|a0 ref c _ _ _ _|a0 w' _].
  - apply Hq, quiet_refresh.
  - apply Hq, quiet_bring_up.
  - apply Hq, quiet_bring_down.
  - done.
Qed.

End Loop.

(** ** The gate and the single scan *)

Section Gate.
Context {World : Type} `{!OS World}.
Implicit Types s : State World.
Implicit Types a : App World.

(** [__init__] when the scan finds an invalid name: the dialog, the
    timer, [refresh]; [load_configs] is not run. *)
Lemma init_invalid (w : World) s0 f :
  world s0 = w →
  f ∈ listdir w (script_dir w) →
  endswith f (lit ".conf") = true →
  Re.match_ VALID_IFACE_PATTERN (PathLib.stem f) = false →
  ∃ invalid_files,
    __init__ s0
    = refresh
        (with_win (set_timer (Some APP_POLL_MS) (new_window (script_dir w)))
           (record [EvGlob (script_dir w) (lit "*" ++ lit ".conf");
                    EvMessageBox Critical (lit "Invalid Config Filenames")
                      (invalid_text invalid_files)] s0)).
Proof.
  intros <- Hin Hconf Hbad.
  set (sA := with_win (new_window (script_dir (world s0))) s0).
  exists (filter (λ p, ¬ valid_path p) (conf_paths sA)).
  assert (f ∈ filter (λ p, ¬ valid_path p) (conf_paths sA)) as Hf.
  { rewrite list_elem_of_filter, elem_of_conf_paths. unfold valid_path.
    by rewrite Is_true_false. }
  unfold __init__, bind, read_world, modify_win. fold sA.
  rewrite check_invalid_configs_unfold.
  destruct (filter (λ p, ¬ valid_path p) (conf_paths sA)) as [|x l];
    [by apply elem_of_nil in Hf|].
  unfold message_box, log, with_win, record. cbn [world win trace app_dir sA new_window].
  unfold sA, with_win. cbn [world win trace app_dir new_window].
  by rewrite <- app_assoc.
Qed.

Lemma gate_closed_main (w : World) f :
  f ∈ listdir w (script_dir w) →
  endswith f (lit ".conf") = true →
  Re.match_ VALID_IFACE_PATTERN (PathLib.stem f) = false →
  gate_closed (main w).
Proof.
  intros Hin Hconf Hbad. unfold main.
  edestruct (init_invalid w {| world := w; win := new_window []; trace := [] |})
    as (inv & Heq); [done..|].
  unfold gate_closed, dispatch. rewrite Heq. clear Heq.
  match goal with |- context [refresh ?x] => set (s1 := x) end.
  destruct (refresh s1) as [r s2] eqn:Hr.
  destruct (quiet_refresh _ _ _ Hr) as (Hsc & _).
  pose proof (refresh_trace _ _ _ Hr) as Htr.
  assert (cards_layout (win s2) = [] ∧
          ∀ argv cwd, EvRun argv cwd ∈ trace s2 → argv = probe_cmd) as Hgoal.
  { split.
    - by injection Hsc as _ -> _ _ _.
    - intros argv cwd. rewrite Htr. unfold s1, with_win, record.
      cbn [trace app]. intros Hev.
      repeat (apply elem_of_cons in Hev as [Heq|Hev];
              [try discriminate; by injection Heq as -> _|]).
      by apply elem_of_nil in Hev. }
  by destruct r as [[]|e].
Qed.

Lemma gate_closed_step a a' : gate_closed a → step a a' → gate_closed a'.
Proof.
  intros [Hl Htr] Hstep. destruct Hstep as [a ms _ _|a ref c _ Hin|a ref c _ Hin|a w' _].
  - unfold gate_closed. rewrite dispatch_state.
    destruct (refresh (state a)) as [r s'] eqn:Hr. cbn [snd].
    destruct (quiet_refresh _ _ _ Hr) as (Hsc & _).
    rewrite (refresh_trace _ _ _ Hr). split.
    + by injection Hsc as _ -> _ _ _.
    + intros argv cwd [?|[= -> _]%list_elem_of_singleton]%elem_of_app; eauto.
  - rewrite Hl in Hin. by apply elem_of_nil in Hin.
  - rewrite Hl in Hin. by apply elem_of_nil in Hin.
  - done.
Qed.

(** C4. When the directory holds, at startup, a configuration file whose
    stem the pattern rejects, then at every later point of the run the
    layout holds no card, so the window offers no interface, valid or
    not; the only events that can follow are the timer and changes of
    the world, never a click; and no command but the probe has been
    run. *)
Theorem invalid_name_closes_gate (w : World) (f : str) a :
  f ∈ listdir w (script_dir w) →
  endswith f (lit ".conf") = true →
  Re.match_ VALID_IFACE_PATTERN (PathLib.stem f) = false →
  rtc step (main w) a →
  offered (win (state a)) = []
  ∧ cards_layout (win (state a)) = []
  ∧ (∀ argv cwd, EvRun argv cwd ∈ trace (state a) → argv = probe_cmd)
  ∧ (∀ a', step a a' →
       a' = dispatch refresh (state a)
       ∨ ∃ w', a' = {| state := with_world w' (state a); halted := false |}).
Proof.
  intros Hin Hconf Hbad Hrun.
  assert (gate_closed a) as [Hl Htr].
  { revert a Hrun. apply rtc_ind_r.
    - by eapply gate_closed_main.
    - intros y z _ Hstep IH. by eapply gate_closed_step. }
  split_and!; try done.
  - unfold offered. by rewrite Hl.
  - intros a' Hstep.
    destruct Hstep as [a ms _ _|a ref c _ Hi|a ref c _ Hi|a w' _].
    + by left.
    + rewrite Hl in Hi. by apply elem_of_nil in Hi.
    + rewrite Hl in Hi. by apply elem_of_nil in Hi.
    + right. by exists w'.
Qed.

(** C10. The directory is read by [__init__] only. At every later point
    of the run, whatever has happened to the files since, the window
    has what [__init__] left of the scan (the layout, the dictionary and
    the name of every card, so the interfaces it offers and whether it
    offers any), the trace holds no scan that [__init__] did not make,
    and a [refresh] from there runs the probe and nothing else. *)
Theorem scan_only_at_startup (w : World) a :
  rtc step (main w) a →
  scanned (win (state a)) = scanned (win (state (main w)))
  ∧ offered (win (state a)) = offered (win (state (main w)))
  ∧ filter (λ e, is_glob e) (trace (state a))
    = filter (λ e, is_glob e) (trace (state (main w)))
  ∧ (∀ r s', refresh (state a) = (r, s') →
       trace s' = trace (state a) ++ [EvRun probe_cmd None]).
Proof.
  intros Hrun.
  assert (scanned (win (state a)) = scanned (win (state (main w)))
          ∧ filter (λ e, is_glob e) (trace (state a))
            = filter (λ e, is_glob e) (trace (state (main w)))) as [Hs Ht].
  { revert a Hrun. apply rtc_ind_r; [done|].
    intros y z _ Hstep [IHs IHt].
    destruct (step_quiet _ _ Hstep) as [Hs Ht]. split; congruence. }
  split_and!; try done.
  - by apply offered_scanned.
  - intros r s'. apply refresh_trace.
Qed.

End Gate.

Import Scenario.

(** ** The properties at work in the simulated system *)

(** C3, where the code departs from it. The pattern accepts a name that
    ends with a line feed, which is not a character of the set: a file
    named [wg0], line feed, [.conf] is not reported as invalid and gets a
    card. *)
Theorem trailing_newline_accepted :
  Re.match_ VALID_IFACE_PATTERN newline_name = true
  ∧ forallb iface_char newline_name = false
  ∧ (check_invalid_configs (blank with_newline)).1 = Return []
  ∧ conf_paths (blank with_newline) = [newline_name ++ lit ".conf"]
  ∧ offered (win (Sim.started with_newline)) = [newline_name].
Proof. by vm_compute. Qed.

(** X1. [VALID_IFACE_PATTERN] accepts exactly the non-empty names made of
    ASCII letters, digits and [_ = + . -], and such a name followed by one
    line feed; it accepts nothing else (no empty name, no space, no
    slash). *)
Lemma valid_iface_spec s :
  Re.match_ VALID_IFACE_PATTERN s = true ↔
  spec_valid s ∨ ∃ body, spec_valid body ∧ s = body ++ LF.
Proof.
  rewrite valid_iface_match. unfold spec_valid. split.
  - intros (body & Hne & Hall & [->| ->]); [by left|right; by exists body].
  - intros [[Hne Hall]|(body & [Hne Hall] & ->)].
    + exists s. by split_and!; [..|left].
    + exists body. by split_and!; [..|right].
Qed.

(** C1 at work: [home] is up and [office] is asked for. *)
Lemma bring_up_conflict_witness :
  bring_up (lit "office") at_home
  = (Return tt,
     record [EvMessageBox Warning (lit "Disconnect first")
               (conflict_text {[lit "home"]} (lit "office"))]
            (probed at_home)).
Proof.
  refine (proj1 (bring_up_conflict (lit "office") at_home (probed at_home)
                   {[lit "home"]} _ _ _)).
  - by vm_compute.
  - apply non_empty_singleton_L.
  - rewrite elem_of_singleton. by vm_compute.
Defined.


(** Behind [pkexec] the same missing [wg-quick] is no failure of the
    launch: [pkexec] is started and exits with status 127, a completed
    process. The warning carries its complaint and the probe follows. *)
Lemma helper_failure_is_reprobed :
  cmd_of (lit "home") true behind_pkexec
  = [lit "/usr/bin/pkexec"; lit "wg-quick"; lit "up";
     lit "/opt/wirewarden/home.conf"]
  ∧ trace (run_wg_quick (lit "home") true behind_pkexec).2
    = trace behind_pkexec ++
      [EvExists (lit "/opt/wirewarden/home.conf");
       EvRun [lit "/usr/bin/pkexec"; lit "wg-quick"; lit "up";
              lit "/opt/wirewarden/home.conf"]
             (Some (lit "/opt/wirewarden"));
       EvMessageBox Warning (lit "wg-quick error")
         (lit "Cannot run program wg-quick: No such file or directory");
       EvRun probe_cmd None].
Proof. by vm_compute. Qed.


(** C5 at work: [home] is up and is asked for again. *)
Lemma idempotent_requests_witness :
  bring_up (lit "home") at_home = (Return tt, probed at_home).
Proof.
  refine (proj1 (idempotent_requests (lit "home") at_home (probed at_home)
                   {[lit "home"]} _) _).
  - by vm_compute.
  - by apply elem_of_singleton.
Defined.

(** C6 at work: the configuration of [home] was deleted after startup. *)
Lemma missing_config_witness :
  bring_up (lit "home") after_delete
  = (Return tt,
     record [EvExists (lit "/opt/wirewarden/home.conf");
             EvMessageBox Critical (lit "Error")
               (lit "Config not found: /opt/wirewarden/home.conf")]
            (probed after_delete)).
Proof.
  refine (proj1 (missing_config (lit "home") after_delete (probed after_delete)
                   ∅ _ _) _).
  - by vm_compute.
  - by vm_compute.
  - done.
Defined.

(** C7 at work: [wg] lists [home]. *)
Lemma get_active_ifaces_spec_witness :
  ∃ A : gset str,
    get_active_ifaces at_home = (Return A, probed at_home)
    ∧ (∀ x, x ∈ A ↔ is_token x (lit "home" ++ LF))
    ∧ (lit "home" ++ LF = [] → A = ∅).
Proof.
  refine (proj2 (proj2 (get_active_ifaces_spec at_home
                          (Completed (Sim.ok (lit "home" ++ LF))) home_up _))
                (Sim.ok (lit "home" ++ LF)) eq_refl eq_refl).
  by vm_compute.
Defined.

(** C8 at work: the directory of the example. *)
Lemma scan_partitions_witness :
  ∃ invalid valid s1 s2,
    check_invalid_configs (blank with_invalid) = (Return invalid, s1)
    ∧ load_configs (blank with_invalid) = (Return tt, s2)
    ∧ offered (win s2) = PathLib.stem <$> valid
    ∧ invalid = [lit "office vpn.conf"]
    ∧ PathLib.stem <$> valid = [lit "home"; lit "wg0"].
Proof.
  destruct (scan_partitions (blank with_invalid))
    as (invalid & valid & s1 & s2 & H1 & H2 & H3 & _ & _ & _ & _ & _ & Hex).
  exists invalid, valid, s1, s2.
  assert (listdir (world (blank with_invalid)) (app_dir (win (blank with_invalid)))
          ≡ₚ [lit "wg0.conf"; lit "office vpn.conf"; lit "home.conf"]) as Hdir
    by done.
  destruct (Hex Hdir) as [Hi Hv]. by split_and!.
Defined.

(** C9 at work: [home] is up and [wg-quick up] is run for it. *)
Lemma failure_message_witness :
  ∃ msg,
    run_wg_quick (lit "home") true at_home
    = refresh (record [EvMessageBox Warning (lit "wg-quick error") msg]
                 (launched (lit "home") true home_up at_home))
    ∧ msg = lit "wg-quick: `home' already exists".
Proof.
  destruct (failure_message (lit "home") true at_home
              (Sim.error (lit "wg-quick: `home' already exists" ++ LF)) home_up)
    as (msg & Hrun & Herr & _).
  - by vm_compute.
  - by vm_compute.
  - done.
  - exists msg. split; [done|]. by apply Herr.
Defined.

(** The run of [after_rename]. *)
Lemma after_rename_reachable : rtc step (main with_invalid) after_rename.
Proof.
  eapply rtc_l; [by apply (step_world _ renamed)|].
  apply rtc_once.
  exact (step_timeout
           {| state := with_world renamed (state (main with_invalid));
              halted := false |}
           APP_POLL_MS eq_refl eq_refl).
Qed.

(** C4 at work: the invalid file is renamed after startup, the timer
    fires, and still nothing is offered. *)
Lemma invalid_name_closes_gate_witness : offered (win (state after_rename)) = [].
Proof.
  refine (proj1 (invalid_name_closes_gate with_invalid (lit "office vpn.conf")
                   after_rename _ _ _ after_rename_reachable)).
  - change (lit "office vpn.conf" ∈ the_three).
    apply list_elem_of_further, list_elem_of_here.
  - by vm_compute.
  - by vm_compute.
Defined.

(** C10 at work: the same run keeps what [__init__] left of the scan. *)
Lemma scan_only_at_startup_witness :
  scanned (win (state after_rename)) = scanned (win (state (main with_invalid))).
Proof.
  exact (proj1 (scan_only_at_startup with_invalid after_rename
                  after_rename_reachable)).
Defined.

(** ** Names and paths *)

Lemma rfind_from_None i c s : c ∉ s → rfind_from i c s = None.
Proof.
  revert i. induction s as [|x s IH]; intros i Hc; [done|].
  apply not_elem_of_cons in Hc as [Hx Hs]. simpl. rewrite IH by done.
  destruct (N.eqb_spec x c); [by subst|done].
Qed.

Lemma rfind_from_last i c pre suf :
  c ∉ suf → rfind_from i c (pre ++ c :: suf) = Some (i + length pre)%nat.
Proof.
  intros Hc. revert i. induction pre as [|x pre IH]; intros i; simpl.
  - rewrite rfind_from_None by done. rewrite N.eqb_refl. f_equal. lia.
  - rewrite IH. f_equal. lia.
Qed.

Lemma endswith_app s suffix :
  endswith s suffix = true ↔ ∃ pre, s = pre ++ suffix.
Proof.
  unfold endswith. rewrite bool_decide_eq_true. split.
  - intros Hd. exists (take (length s - length suffix) s).
    rewrite <- Hd at 2. by rewrite take_drop.
  - intros (pre & ->). rewrite length_app.
    replace (length pre + length suffix - length suffix)%nat with (length pre) by lia.
    by rewrite drop_app_length.
Qed.

(** The stem of a name that ends with [.conf]: the name without these
    five characters, unless they are the whole name. *)
Lemma stem_conf pre :
  PathLib.stem (pre ++ lit ".conf") = if decide (pre = []) then lit ".conf" else pre.
Proof.
  unfold PathLib.stem, rfind.
  change (lit ".conf") with (0x2E :: lit "conf").
  rewrite rfind_from_last.
  2:{ intros Hin. vm_compute in Hin. repeat (apply elem_of_cons in Hin as [Hin|Hin]; [done|]).
      by apply elem_of_nil in Hin. }
  rewrite length_app. cbn [length lit]. simpl length.
  destruct pre as [|x pre]; [done|].
  rewrite decide_False by done.
  rewrite bool_decide_true by (simpl; lia).
  rewrite Nat.add_0_l. by rewrite take_app_length.
Qed.

Lemma stem_restores f :
  endswith f (lit ".conf") = true → f ≠ lit ".conf" →
  PathLib.stem f ++ lit ".conf" = f.
Proof.
  intros (pre & ->)%endswith_app Hne. rewrite stem_conf.
  by rewrite decide_False by (by intros ->).
Qed.

(** X2. The stem of a configuration file leads back to the file: for every
    name that ends with [.conf], except the name [.conf] itself, the path
    [run_wg_quick] builds from the stem is the path of the file. The
    file named [.conf] has no suffix for [pathlib]: its stem is [.conf],
    and [run_wg_quick] looks for [.conf.conf]. *)
Theorem conf_path_roundtrip (w : MainWindow) (f : str) :
  endswith f (lit ".conf") = true →
  (f ≠ lit ".conf" →
     PathLib.stem f ++ lit ".conf" = f
     ∧ conf_path w (PathLib.stem f) = PathLib.joinpath (app_dir w) f)
  ∧ (f = lit ".conf" →
     PathLib.stem f = lit ".conf"
     ∧ conf_path w (PathLib.stem f)
       = PathLib.joinpath (app_dir w) (lit ".conf.conf")).
Proof.
  intros Hf. split.
  - intros Hne. pose proof (stem_restores f Hf Hne) as Heq.
    split; [done|]. unfold conf_path. by rewrite Heq.
  - intros ->. by vm_compute.
Qed.

(** Two files that end with [.conf], neither named [.conf], have
    different stems. *)
Lemma stem_conf_inj f g :
  endswith f (lit ".conf") = true → endswith g (lit ".conf") = true →
  f ≠ lit ".conf" → g ≠ lit ".conf" →
  PathLib.stem f = PathLib.stem g → f = g.
Proof.
  intros Hf Hg Hnf Hng Heq.
  rewrite <- (stem_restores f Hf Hnf), <- (stem_restores g Hg Hng).
  by rewrite Heq.
Qed.

(** A name the pattern accepts holds no slash. *)
Lemma valid_no_slash n :
  Re.match_ VALID_IFACE_PATTERN n = true → 0x2F ∉ n.
Proof.
  intros (body & _ & Hall & Hn)%valid_iface_match Hin.
  assert (0x2F ∉ body) as Hbody.
  { intros Hb. rewrite forallb_forall in Hall.
    apply list_elem_of_In in Hb. by apply Hall in Hb. }
  destruct Hn as [->| ->]; [done|].
  apply elem_of_app in Hin as [?|Hin]; [done|].
  by apply list_elem_of_singleton in Hin.
Qed.

(** ** Startup *)

Section Startup.
Context {World : Type} `{!OS World}.
Implicit Types s : State World.
Implicit Types a : App World.

(** [__init__], by what the scan finds: the dialog when a name is
  invalid, [load_configs] when none is; then the timer and [refresh]. *)
Lemma init_unfold s0 :
let dir := script_dir (world s0) in
let paths := conf_paths (with_win (new_window dir) s0) in
__init__ s0 =
  match filter (λ p, ¬ valid_path p) paths with
  | [] =>
      refresh (with_win (set_timer (Some APP_POLL_MS) (loaded dir paths))
                 (record [glob_event dir; glob_event dir] s0))
  | invalid_files =>
      refresh (with_win (set_timer (Some APP_POLL_MS) (new_window dir))
                 (record [glob_event dir;
                          EvMessageBox Critical (lit "Invalid Config Filenames")
                            (invalid_text invalid_files)] s0))
  end.
Proof.
intros dir paths. subst paths.
set (sA := with_win (new_window dir) s0).
unfold __init__, bind, read_world, modify_win. fold dir. fold sA.
rewrite check_invalid_configs_unfold.
destruct (filter (λ p, ¬ valid_path p) (conf_paths sA)) as [|x l] eqn:Hinv.
- rewrite load_configs_unfold.
  unfold message_box, log, with_win, record, loaded, glob_event, conf_paths.
  cbn [world win trace app_dir sA new_window].
  unfold sA, with_win. cbn [world win trace app_dir new_window].
  by rewrite <- app_assoc.
- unfold message_box, log, with_win, record, glob_event.
  cbn [world win trace app_dir sA new_window].
  unfold sA, with_win. cbn [world win trace app_dir new_window].
  by rewrite <- app_assoc.
Qed.

(** What [main] leaves, in terms of the window [refresh] started from. *)
Lemma main_unfold (w : World) :
let dir := script_dir w in
let paths := sorted (filter is_conf (listdir w dir)) in
∃ w1 evs,
  main w = dispatch refresh
             {| world := w; win := set_timer (Some APP_POLL_MS) w1; trace := evs |}
  ∧ ((filter (λ p, ¬ valid_path p) paths = []
      ∧ w1 = loaded dir paths ∧ evs = [glob_event dir; glob_event dir])
     ∨ (filter (λ p, ¬ valid_path p) paths ≠ []
        ∧ w1 = new_window dir
        ∧ evs = [glob_event dir;
                 EvMessageBox Critical (lit "Invalid Config Filenames")
                   (invalid_text (filter (λ p, ¬ valid_path p) paths))])).
Proof.
intros dir paths. unfold main, dispatch. rewrite init_unfold.
cbn [world]. fold dir. unfold conf_paths. cbn [world win with_win app_dir new_window].
fold dir. fold paths.
destruct (filter (λ p, ¬ valid_path p) paths) as [|x l] eqn:Hinv.
- exists (loaded dir paths), [glob_event dir; glob_event dir].
  split; [done|]. by left.
- eexists (new_window dir), _. split; [done|]. right. by split_and!.
Qed.

End Startup.

(** ** The dictionary of cards *)

Lemma elem_of_dict_set {V} (k : str) (v : V) d k' v' :
  (k', v') ∈ dict_set k v d → (k' = k ∧ v' = v) ∨ (k', v') ∈ d.
Proof.
  induction d as [|[k1 v1] d IH]; simpl.
  - intros [= -> ->]%list_elem_of_singleton. by left.
  - destruct (decide (k1 = k)) as [->|Hne].
    + intros [[= -> ->]|Hin]%elem_of_cons; [by left|].
      right. by apply list_elem_of_further.
    + intros [[= -> ->]|Hin]%elem_of_cons; [right; apply list_elem_of_here|].
      destruct (IH Hin) as [?|?]; [by left|right; by apply list_elem_of_further].
Qed.

Lemma dict_set_keys {V} (k : str) (v : V) d k' :
  k' ∈ (dict_set k v d).*1 ↔ k' = k ∨ k' ∈ d.*1.
Proof.
  induction d as [|[k1 v1] d IH]; simpl.
  - rewrite list_elem_of_singleton, elem_of_nil. tauto.
  - destruct (decide (k1 = k)) as [->|Hne]; simpl.
    + rewrite !elem_of_cons. tauto.
    + rewrite !elem_of_cons, IH. tauto.
Qed.

Lemma dict_set_keys_NoDup {V} (k : str) (v : V) d :
  NoDup d.*1 → NoDup (dict_set k v d).*1.
Proof.
  induction d as [|[k1 v1] d IH]; simpl.
  - intros _. apply NoDup_singleton.
  - intros [Hk1 Hd]%NoDup_cons. destruct (decide (k1 = k)) as [->|Hne]; simpl.
    + by apply NoDup_cons.
    + apply NoDup_cons. split; [|by apply IH].
      rewrite dict_set_keys. intros [->|?]; done.
Qed.

Lemma dict_set_values {V} (k : str) (v : V) d x :
  x ∈ (dict_set k v d).*2 → x = v ∨ x ∈ d.*2.
Proof.
  intros ([k' v'] & -> & Hin)%list_elem_of_fmap.
  destruct (elem_of_dict_set _ _ _ _ _ Hin) as [[_ ->]|Hd]; [by left|right].
  apply list_elem_of_fmap. by exists (k', v').
Qed.

Lemma dict_set_values_NoDup {V} (k : str) (v : V) d :
  NoDup d.*2 → v ∉ d.*2 → NoDup (dict_set k v d).*2.
Proof.
  induction d as [|[k1 v1] d IH]; simpl.
  - intros _ _. apply NoDup_singleton.
  - intros [Hv1 Hd]%NoDup_cons [Hne Hv]%not_elem_of_cons.
    destruct (decide (k1 = k)) as [->|Hk]; simpl.
    + by apply NoDup_cons.
    + apply NoDup_cons. split; [|by apply IH].
      intros [->|?]%dict_set_values; done.
Qed.

Lemma cards_wf_load_config w p : cards_wf w → cards_wf (load_config w p).
Proof.
  intros (Hk & Hv & Hc & Hl). unfold load_config.
  destruct (Re.match_ VALID_IFACE_PATTERN (PathLib.stem p)); [|done].
  cbn [negb]. unfold cards_wf. cbn [cards widgets cards_layout].
  assert (length (widgets w) ∉ (cards w).*2) as Hfresh.
  { intros ([k r] & Hr & Hin)%list_elem_of_fmap. simpl in Hr. subst r.
    destruct (Hc _ _ Hin) as [Hlook _].
    apply lookup_lt_Some in Hlook. rewrite length_fmap in Hlook. lia. }
  split_and!.
  - by apply dict_set_keys_NoDup.
  - by apply dict_set_values_NoDup.
  - intros k r [[-> ->]|Hin]%elem_of_dict_set.
    + split.
      * rewrite fmap_app. rewrite lookup_app_r by (by rewrite length_fmap).
        by rewrite length_fmap, Nat.sub_diag.
      * apply elem_of_app. right. apply list_elem_of_here.
    + destruct (Hc _ _ Hin) as [Hlook Hlay]. split.
      * rewrite fmap_app. by apply lookup_app_l_Some.
      * apply elem_of_app. by left.
  - intros r n Hlay Hlook. apply dict_set_keys.
    rewrite fmap_app in Hlook. apply lookup_app_Some in Hlook as [Hold|[Hge Hnew]].
    + apply elem_of_app in Hlay as [Hlay|Hlay%list_elem_of_singleton].
      * right. by apply (Hl r n).
      * injection Hlay as ->. apply lookup_lt_Some in Hold.
        rewrite length_fmap in Hold. lia.
    + left. apply list_lookup_singleton_Some in Hnew as [_ <-]. done.
Qed.

Lemma cards_wf_foldl paths w : cards_wf w → cards_wf (foldl load_config w paths).
Proof.
  revert w. induction paths as [|p paths IH]; intros w Hw; [done|].
  simpl. by apply IH, cards_wf_load_config.
Qed.

Lemma cards_wf_loaded dir paths : cards_wf (loaded dir paths).
Proof.
  assert (cards_wf (clear_cards (new_window dir))) as H0.
  { unfold cards_wf. cbn. split_and!; try apply NoDup_nil_2.
    - intros k r Hin. by apply elem_of_nil in Hin.
    - intros r n Hin. by apply elem_of_nil in Hin. }
  pose proof (cards_wf_foldl paths _ H0) as (Hk & Hv & Hc & Hl).
  unfold loaded, cards_wf, add_stretch. cbn [cards widgets cards_layout].
  split_and!; try done.
  - intros k r Hin. destruct (Hc k r Hin) as [? ?]. split; [done|].
    apply elem_of_app. by left.
  - intros r n [Hin|Hin%list_elem_of_singleton]%elem_of_app; [by apply Hl|done].
Qed.

Lemma cards_wf_new_window dir : cards_wf (new_window dir).
Proof.
  unfold cards_wf. cbn. split_and!; try apply NoDup_nil_2.
  - intros k r Hin. by apply elem_of_nil in Hin.
  - intros r n Hin. by apply elem_of_nil in Hin.
Qed.

(** Consistency is a matter of what the window keeps of the scan. *)
Lemma cards_wf_scanned w w' : scanned w = scanned w' → cards_wf w → cards_wf w'.
Proof.
  unfold scanned, cards_wf. intros [= _ Hl Hc Hn _]. by rewrite Hl, Hc, Hn.
Qed.

Lemma cards_wf_set_timer t w : cards_wf w → cards_wf (set_timer t w).
Proof. done. Qed.

(** The loop of [refresh], card by card: a card the dictionary refers to
    is set from its key. *)
Lemma set_states_lookup (A : gset str) (d : list (str * nat))
    (ws : list IfaceCard) (k : str) (r : nat) :
  NoDup d.*2 → (k, r) ∈ d →
  foldl (λ ws kv, alter (set_state (bool_decide (kv.1 ∈ A))) kv.2 ws) ws d !! r
  = set_state (bool_decide (k ∈ A)) <$> ws !! r.
Proof.
  revert ws. induction d as [|[k1 r1] d IH]; intros ws Hnd Hin.
  - by apply elem_of_nil in Hin.
  - cbn [fmap list_fmap snd] in Hnd. apply NoDup_cons in Hnd as [Hr1 Hnd].
    cbn [foldl fst snd]. apply elem_of_cons in Hin as [[= <- <-]|Hin].
    + assert (∀ ws' : list IfaceCard, foldl (λ ws kv, alter (set_state (bool_decide (kv.1 ∈ A))) kv.2 ws)
                       ws' d !! r = ws' !! r) as ->.
      { clear IH Hnd. induction d as [|[k2 r2] d IH]; intros ws'; [done|].
        cbn [fmap list_fmap snd] in Hr1. apply not_elem_of_cons in Hr1 as [Hne Hr1].
        cbn [foldl fst snd]. rewrite IH by done.
        by rewrite list_lookup_alter_ne. }
      apply list_lookup_alter_eq.
    + rewrite IH by done. rewrite list_lookup_alter_ne; [done|].
      intros ->. apply Hr1. apply list_elem_of_fmap. by exists (k, r).
Qed.

Lemma offered_elem w n :
  n ∈ offered w ↔
  ∃ r, ItemWidget r ∈ cards_layout w ∧ (name <$> widgets w) !! r = Some n.
Proof.
  unfold offered. rewrite list_elem_of_omap. split.
  - intros ([r|] & Hin & Hf); [|done]. exists r. split; [done|].
    by rewrite list_lookup_fmap.
  - intros (r & Hin & Hf). exists (ItemWidget r). split; [done|].
    by rewrite list_lookup_fmap in Hf.
Qed.

(** Where the names of the layout are distinct, a card of the layout is
    the card the dictionary has for its name. *)
Lemma NoDup_omap_inj {A B} (f : A → option B) l x y z :
  NoDup (omap f l) → x ∈ l → y ∈ l → f x = Some z → f y = Some z → x = y.
Proof.
  induction l as [|a l IH]; [by intros _ ?%elem_of_nil|].
  cbn [omap list_omap]. intros Hnd Hx Hy Hfx Hfy.
  apply elem_of_cons in Hx as [->|Hx]; apply elem_of_cons in Hy as [->|Hy]; [done|..].
  - rewrite Hfx in Hnd. apply NoDup_cons in Hnd as [Hz _]. exfalso. apply Hz.
    apply list_elem_of_omap. by exists y.
  - rewrite Hfy in Hnd. apply NoDup_cons in Hnd as [Hz _]. exfalso. apply Hz.
    apply list_elem_of_omap. by exists x.
  - apply IH; try done. destruct (f a); [by apply NoDup_cons in Hnd as [_ ?]|done].
Qed.

Section Cards.
Context {World : Type} `{!OS World}.
Implicit Types s : State World.
Implicit Types a : App World.

(** What the window keeps of the scan is what [main] left. *)
Lemma reachable_scanned (w : World) a :
rtc step (main w) a → scanned (win (state a)) = scanned (win (state (main w))).
Proof.
revert a. apply rtc_ind_r; [done|].
intros y z _ Hstep IH. destruct (step_quiet _ _ Hstep) as [Hs _]. congruence.
Qed.

Lemma main_cards_wf (w : World) : cards_wf (win (state (main w))).
Proof.
destruct (main_unfold w) as (w1 & evs & -> & Hcase).
rewrite dispatch_state.
match goal with |- context [refresh ?x] => destruct (refresh x) as [r s'] eqn:Hr end.
destruct (quiet_refresh _ _ _ Hr) as [Hsc _]. cbn [snd].
apply (cards_wf_scanned _ _ (eq_sym Hsc)). cbn [win].
apply cards_wf_set_timer.
destruct Hcase as [(_ & -> & _)|(_ & -> & _)];
  [apply cards_wf_loaded|apply cards_wf_new_window].
Qed.

(** X8. The dictionary stays consistent with the layout over every run: its
  keys are the names the window offers, each key refers to a card of
  the layout that bears it, and no two keys refer to one card. *)
Theorem cards_consistent (w : World) a :
rtc step (main w) a →
cards_wf (win (state a))
∧ ∀ n, n ∈ offered (win (state a)) ↔ n ∈ (cards (win (state a))).*1.
Proof.
intros Hrun.
pose proof (reachable_scanned w a Hrun) as Hsc.
assert (cards_wf (win (state a))) as Hwf.
{ apply (cards_wf_scanned _ _ (eq_sym Hsc)), main_cards_wf. }
split; [done|]. destruct Hwf as (_ & _ & Hc & Hl).
intros n. rewrite offered_elem. split.
- intros (r & Hin & Hn). by apply (Hl r n).
- intros ([k r] & -> & Hin)%list_elem_of_fmap.
  destruct (Hc _ _ Hin) as [Hn Hlay]. by exists r.
Qed.

(** X9. After a [refresh] whose probe returned [active], every card the
  dictionary refers to has only the button opposite to its state
  enabled (UP when its name is not active, DOWN when it is), and the
  label is the text of [active]; where the names of the layout are
  distinct, this holds of every card of the layout. *)
Theorem refresh_sets_buttons s s2 (active : gset str) :
cards_wf (win s) →
get_active_ifaces s = (Return active, s2) →
∃ s', refresh s = (Return tt, s')
  ∧ status_label (win s') = active_text active
  ∧ (∀ k r, (k, r) ∈ cards (win s) →
       ∃ c, widgets (win s') !! r = Some c ∧ name c = k
            ∧ up_btn_enabled c = negb (bool_decide (k ∈ active))
            ∧ down_btn_enabled c = bool_decide (k ∈ active))
  ∧ (NoDup (offered (win s)) →
     ∀ r c, ItemWidget r ∈ cards_layout (win s') →
            widgets (win s') !! r = Some c →
            up_btn_enabled c = negb (bool_decide (name c ∈ active))
            ∧ down_btn_enabled c = bool_decide (name c ∈ active)).
Proof.
intros (Hk & Hv & Hc & Hl) Hprobe.
destruct (get_active_ifaces_frame _ _ _ Hprobe) as (Hwin & _ & _).
eexists. split; [by apply refresh_returns|].
cbn [win with_win]. rewrite Hwin.
assert (∀ k r, (k, r) ∈ cards (win s) →
   ∃ c, widgets (refreshed active (win s)) !! r = Some c ∧ name c = k
        ∧ up_btn_enabled c = negb (bool_decide (k ∈ active))
        ∧ down_btn_enabled c = bool_decide (k ∈ active)) as Hcards.
{ intros k r Hin. destruct (Hc _ _ Hin) as [Hn _].
  rewrite list_lookup_fmap in Hn.
  destruct (widgets (win s) !! r) as [c|] eqn:Hr; [|done].
  injection Hn as <-.
  exists (set_state (bool_decide (name c ∈ active)) c).
  unfold refreshed, set_states, set_status_label, set_widgets. cbn [widgets].
  rewrite (set_states_lookup active _ _ (name c) r Hv Hin), Hr.
  split; [done|]. by destruct (bool_decide (name c ∈ active)). }
split_and!; [done|done|].
intros Hnd r c Hlay Hr.
assert (cards_layout (refreshed active (win s)) = cards_layout (win s)) as Hlay_eq by done.
rewrite Hlay_eq in Hlay.
assert ((name <$> widgets (win s)) !! r = Some (name c)) as Hn.
{ pose proof (refreshed_scanned active (win s)) as Hsc.
  apply (f_equal (λ t, t.1.2)) in Hsc. cbn [scanned fst snd] in Hsc.
  rewrite <- Hsc. by rewrite list_lookup_fmap, Hr. }
pose proof (Hl r (name c) Hlay Hn) as ([k r'] & Hkey & Hin)%list_elem_of_fmap.
simpl in Hkey. subst k.
destruct (Hc _ _ Hin) as [Hn' Hlay'].
assert (ItemWidget r = ItemWidget r') as Heq.
{ apply (NoDup_omap_inj _ _ _ _ (name c) Hnd Hlay Hlay'); cbn [item_widget mbind option_bind].
  - by rewrite <- list_lookup_fmap.
  - by rewrite <- list_lookup_fmap. }
injection Heq as <-.
destruct (Hcards _ _ Hin) as (c' & Hr' & _ & Hup & Hdown).
rewrite Hr in Hr'. by injection Hr' as <-.
Qed.

End Cards.

(** ** What the window offers *)

Lemma offered_after_load w0 paths :
  offered (add_stretch (foldl load_config (clear_cards w0) paths))
  = PathLib.stem <$> filter valid_path paths.
Proof.
  destruct (load_config_foldl paths (clear_cards w0)) as (Hw & Hl & _).
  unfold offered, add_stretch. cbn [cards_layout widgets].
  rewrite Hw, Hl. cbn [clear_cards cards_layout widgets].
  rewrite !omap_app. rewrite omap_no_widget. simpl.
  rewrite <- (length_fmap (new_card ∘ PathLib.stem)), omap_new_cards.
  rewrite app_nil_r, <- list_fmap_compose. done.
Qed.

Lemma offered_loaded dir paths :
  offered (loaded dir paths) = PathLib.stem <$> filter valid_path paths.
Proof. apply offered_after_load. Qed.

Lemma filter_all {A} (P : A → Prop) `{!∀ x, Decision (P x)} (l : list A) :
  (∀ x, x ∈ l → P x) → filter P l = l.
Proof.
  induction l as [|x l IH]; [done|]. intros Hl.
  rewrite filter_cons, decide_True by (apply Hl; apply list_elem_of_here).
  f_equal. apply IH. intros y Hy. apply Hl. by apply list_elem_of_further.
Qed.

Lemma filter_none {A} (P : A → Prop) `{!∀ x, Decision (P x)} (l : list A) :
  (∀ x, x ∈ l → ¬ P x) → filter P l = [].
Proof.
  induction l as [|x l IH]; [done|]. intros Hl.
  rewrite filter_cons, decide_False by (apply Hl; apply list_elem_of_here).
  apply IH. intros y Hy. apply Hl. by apply list_elem_of_further.
Qed.

Section Offered.
Context {World : Type} `{!OS World}.
Implicit Types s : State World.
Implicit Types a : App World.

(** The window [main] leaves, by what the scan found. *)
Lemma main_offered (w : World) :
let paths := sorted (filter is_conf (listdir w (script_dir w))) in
offered (win (state (main w)))
= match filter (λ p, ¬ valid_path p) paths with
  | [] => PathLib.stem <$> filter valid_path paths
  | _ => []
  end.
Proof.
intros paths. destruct (main_unfold w) as (w1 & evs & -> & Hcase).
rewrite dispatch_state.
match goal with |- context [refresh ?x] => destruct (refresh x) as [r s'] eqn:Hr end.
destruct (quiet_refresh _ _ _ Hr) as [Hsc _]. cbn [snd].
rewrite (offered_scanned _ _ Hsc). cbn [win].
fold paths in Hcase. destruct Hcase as [(-> & -> & _)|(Hne & -> & _)].
- apply offered_loaded.
- by destruct (filter (λ p, ¬ valid_path p) paths).
Qed.

Lemma main_trace (w : World) :
∃ evs, trace (state (main w)) = evs ++ [EvRun probe_cmd None]
  ∧ timer (win (state (main w))) = Some APP_POLL_MS
  ∧ app_dir (win (state (main w))) = script_dir w
  ∧ Forall (λ e, ∀ argv cwd, e ≠ EvRun argv cwd) evs
  ∧ (filter (λ p, ¬ valid_path p)
       (sorted (filter is_conf (listdir w (script_dir w)))) = [] →
     evs = [glob_event (script_dir w); glob_event (script_dir w)]).
Proof.
destruct (main_unfold w) as (w1 & evs & -> & Hcase). exists evs.
rewrite dispatch_state.
match goal with |- context [refresh ?x] => destruct (refresh x) as [r s'] eqn:Hr end.
destruct (quiet_refresh _ _ _ Hr) as [Hsc _]. cbn [snd].
rewrite (refresh_trace _ _ _ Hr). cbn [trace].
split; [done|].
apply (f_equal (λ t, (t.2, t.1.1.1.1))) in Hsc. cbn [scanned fst snd] in Hsc.
injection Hsc as -> ->. cbn [win timer app_dir set_timer].
destruct Hcase as [(Hinv & -> & ->)|(Hinv & -> & ->)]; split_and!; try done.
- unfold loaded, add_stretch. cbn [app_dir].
  by destruct (load_config_foldl
                 (sorted (filter is_conf (listdir w (script_dir w))))
                 (clear_cards (new_window (script_dir w)))) as (_ & _ & -> & _).
- by repeat constructor.
- by repeat constructor.
Qed.

(** X3. When every configuration file of the directory has a valid name,
  startup shows no dialog: the directory is read by
  [check_invalid_configs] and again by [load_configs], the probe is run
  once, the timer is started with [APP_POLL_MS], and the window offers
  one card for each file that ends with [.conf], named by its stem, in
  the order of the file names. *)
Theorem startup_offers_all (w : World) :
(∀ f, f ∈ listdir w (script_dir w) → endswith f (lit ".conf") = true →
      Re.match_ VALID_IFACE_PATTERN (PathLib.stem f) = true) →
offered (win (state (main w)))
  = PathLib.stem <$> sorted (filter is_conf (listdir w (script_dir w)))
∧ trace (state (main w))
  = [glob_event (script_dir w); glob_event (script_dir w); EvRun probe_cmd None]
∧ timer (win (state (main w))) = Some APP_POLL_MS
∧ app_dir (win (state (main w))) = script_dir w.
Proof.
intros Hvalid.
set (paths := sorted (filter is_conf (listdir w (script_dir w)))).
assert (∀ p, p ∈ paths → valid_path p) as Hall.
{ intros p [Hin Hconf]%elem_of_sorted%list_elem_of_filter.
  unfold valid_path. apply Is_true_true. apply Hvalid; [done|].
  by apply Is_true_true. }
assert (filter (λ p, ¬ valid_path p) paths = []) as Hinv.
{ apply filter_none. intros p Hp Hn. by apply Hn, Hall. }
destruct (main_trace w) as (evs & Htr & Htimer & Hdir & _ & Hevs).
split_and!; try done.
- rewrite main_offered. fold paths. rewrite Hinv. by rewrite filter_all.
- rewrite Htr, (Hevs Hinv). done.
Qed.

(** X4. Every name the window offers, at any point of a run, is the stem of
  an entry of the directory that ended with [.conf] at startup; the
  pattern accepts it, and it holds no slash, so the path [run_wg_quick]
  makes of it is an entry of the directory itself. *)
Theorem offered_names_valid (w : World) a (n : str) :
rtc step (main w) a →
n ∈ offered (win (state a)) →
Re.match_ VALID_IFACE_PATTERN n = true
∧ (0x2F ∈ n → False)
∧ ∃ f, f ∈ listdir w (script_dir w) ∧ endswith f (lit ".conf") = true
       ∧ n = PathLib.stem f.
Proof.
intros Hrun Hn.
assert (offered (win (state a)) = offered (win (state (main w)))) as Heq.
{ by apply offered_scanned, reachable_scanned. }
rewrite Heq, main_offered in Hn.
destruct (filter (λ p, ¬ valid_path p) _); [|by apply elem_of_nil in Hn].
apply list_elem_of_fmap in Hn as (f & -> & [Hv [Hin Hconf]%elem_of_sorted%list_elem_of_filter]%list_elem_of_filter).
unfold valid_path in Hv. apply Is_true_true in Hv.
split_and!; [done|by apply valid_no_slash|].
exists f. split_and!; try done. by apply Is_true_true.
Qed.

End Offered.

(** ** Errors of the probe, and the commands that are run *)

Section Commands.
Context {World : Type} `{!OS World}.
Implicit Types s : State World.
Implicit Types a : App World.

(** X5. Where no entry is named [.conf] and the listing has no entry twice,
  the names the window offers are distinct, at every point of a run. *)
Theorem offered_distinct (w : World) a :
NoDup (listdir w (script_dir w)) →
lit ".conf" ∉ listdir w (script_dir w) →
rtc step (main w) a →
NoDup (offered (win (state a))).
Proof.
intros Hnd Hdot Hrun.
rewrite (offered_scanned _ _ (reachable_scanned w a Hrun)), main_offered.
destruct (filter (λ p, ¬ valid_path p) _); [|apply NoDup_nil_2].
apply NoDup_fmap_2_strong.
- intros f g [_ [Hf Hcf]%elem_of_sorted%list_elem_of_filter]%list_elem_of_filter
             [_ [Hg Hcg]%elem_of_sorted%list_elem_of_filter]%list_elem_of_filter.
  apply stem_conf_inj; try (by apply Is_true_true); by intros ->.
- apply NoDup_filter. rewrite sorted_Permutation. by apply NoDup_filter.
Qed.

(** X6. An error of the probe that is not [FileNotFoundError] is not caught:
  [get_active_ifaces] raises it again, and so do [refresh], [bring_up]
  and [bring_down], once the probe has been run, with no dialog and no
  other command; the event loop ends there. *)
Theorem probe_error_propagates s e w' (name : str) :
subprocess_run probe_cmd None (world s) = (Failed e, w') →
is_FileNotFoundError e = false →
let s' := with_world w' (record [EvRun probe_cmd None] s) in
get_active_ifaces s = (Raise e, s')
∧ refresh s = (Raise e, s')
∧ bring_up name s = (Raise e, s')
∧ bring_down name s = (Raise e, s')
∧ halted (dispatch refresh s) = true.
Proof.
intros Hrun Hfnf s'.
assert (get_active_ifaces s = (Raise e, s')) as Hprobe.
{ rewrite get_active_ifaces_unfold, Hrun. by rewrite Hfnf. }
split_and!; [done|by apply refresh_raises|..].
- unfold bring_up, bind. by rewrite Hprobe.
- unfold bring_down, bind. by rewrite Hprobe.
- unfold dispatch. by rewrite (refresh_raises _ _ _ Hprobe).
Qed.

(** The command raised an exception that is not an [Exception]: the
  handler of [run_wg_quick] does not catch it. *)
Lemma run_wg_quick_raises (name : str) up s e w' :
path_exists (world s) (conf_path (win s) name) = true →
subprocess_run (cmd_of name up s) (Some (app_dir (win s))) (world s)
  = (Failed e, w') →
is_Exception e = false →
run_wg_quick name up s = (Raise e, launched name up w' s).
Proof.
intros Hex Hrun He.
unfold run_wg_quick, bind, get_win, message_box, log, read_world,
  try_except, modify_win, run, ret, with_win, with_world, record.
cbn [world win trace]. rewrite Hex. cbn [negb world win trace].
unfold cmd_of in Hrun. rewrite Hrun, He.
unfold launched, cmd_of. cbn [world win trace].
rewrite <- ?app_assoc. reflexivity.
Qed.




(** X10. A request that is admitted, finds its file and whose command exits
  with status zero shows no dialog: the probe, the existence test, the
  command and the probe of [refresh] are all that happens, in this
  order, and the request ends as that [refresh] does. *)
Theorem admitted_request_succeeds (name : str) (up : bool) s s1
  (active : gset str) p w' :
get_active_ifaces s = (Return active, s1) →
(if up then active = ∅ else name ∈ active) →
path_exists (world s1) (conf_path (win s1) name) = true →
subprocess_run (cmd_of name up s1) (Some (app_dir (win s1))) (world s1)
  = (Completed p, w') →
returncode p = 0%Z →
(if up then bring_up name s else bring_down name s)
  = refresh (launched name up w' s1)
∧ trace ((if up then bring_up name s else bring_down name s)).2
  = trace s ++ [EvRun probe_cmd None;
                EvExists (conf_path (win s) name);
                EvRun (cmd_of name up s1) (Some (app_dir (win s)));
                EvRun probe_cmd None].
Proof.
intros Hprobe Hadm Hex Hrun Hrc.
destruct (get_active_ifaces_frame _ _ _ Hprobe) as (Hwin & Htr & _).
assert ((if up then bring_up name s else bring_down name s)
        = refresh (launched name up w' s1)) as Heq.
{ pose proof (run_wg_quick_completed name up s1 p w' Hex Hrun) as Hq.
  unfold failure_dialog in Hq.
  rewrite bool_decide_false in Hq by (by intros []).
  rewrite record_nil in Hq. rewrite <- Hq.
  destruct up.
  - subst active. unfold bring_up, bind. rewrite Hprobe.
    rewrite (bool_decide_false (∅ ≠ ∅)) by (by intros []).
    by rewrite (bool_decide_false (name ∈ ∅)) by set_solver.
  - unfold bring_down, bind. rewrite Hprobe.
    by rewrite (bool_decide_false (name ∉ active)) by (by intros []). }
split; [done|]. rewrite Heq.
destruct (refresh (launched name up w' s1)) as [r s'] eqn:Hr. cbn [snd].
rewrite (refresh_trace _ _ _ Hr). unfold launched. cbn [trace].
rewrite Htr, Hwin. by rewrite <- !app_assoc.
Qed.

End Commands.

(** ** The single connection *)

Section Guard.
Context {World : Type} `{!OS World}.
Implicit Types s : State World.

(** What [run_wg_quick] adds to the trace: its command is there only if
  the file was found. *)
Lemma run_wg_quick_events (name : str) up s r s' :
run_wg_quick name up s = (r, s') →
∃ evs, trace s' = trace s ++ evs
  ∧ ∀ argv cwd, EvRun argv cwd ∈ evs →
      (argv = probe_cmd ∧ cwd = None)
      ∨ (path_exists (world s) (conf_path (win s) name) = true
         ∧ argv = cmd_of name up s ∧ cwd = Some (app_dir (win s))).
Proof.
destruct (path_exists (world s) (conf_path (win s) name)) eqn:Hex.
2:{ rewrite (run_wg_quick_missing _ _ _ Hex). intros [= <- <-].
    eexists. split; [done|]. intros argv cwd Hin.
    repeat (apply elem_of_cons in Hin as [?|Hin]; [done|]).
    by apply elem_of_nil in Hin. }
assert (∀ argv cwd more,
  (∀ e, e ∈ more → e = EvRun probe_cmd None ∨ ∀ av cw, e ≠ EvRun av cw) →
  EvRun argv cwd ∈ [EvExists (conf_path (win s) name);
                    EvRun (cmd_of name up s) (Some (app_dir (win s)))] ++ more →
  argv = probe_cmd ∧ cwd = None
  ∨ true = true ∧ argv = cmd_of name up s ∧ cwd = Some (app_dir (win s))) as Hev.
{ intros argv cwd more Hmore [Hin|Hin]%elem_of_app.
  - apply elem_of_cons in Hin as [?|Hin]; [done|].
    apply list_elem_of_singleton in Hin as [= -> ->]. by right.
  - destruct (Hmore _ Hin) as [[= -> ->]|Hne]; [by left|]. by destruct (Hne argv cwd). }
destruct (subprocess_run (cmd_of name up s) (Some (app_dir (win s))) (world s))
  as [[p|e] w'] eqn:Hrun.
- rewrite (run_wg_quick_completed _ _ _ _ _ Hex Hrun). intros Hr.
  rewrite (refresh_trace _ _ _ Hr). unfold record, launched. cbn [trace].
  exists ([EvExists (conf_path (win s) name);
           EvRun (cmd_of name up s) (Some (app_dir (win s)))]
          ++ (failure_dialog p ++ [EvRun probe_cmd None])).
  split; [by rewrite <- !app_assoc|].
  intros argv cwd. apply Hev. intros e [Hin|Hin%list_elem_of_singleton]%elem_of_app.
  + right. unfold failure_dialog in Hin.
    destruct (bool_decide (returncode p ≠ 0%Z)).
    * apply list_elem_of_singleton in Hin as ->. done.
    * by apply elem_of_nil in Hin.
  + by left.
- destruct (is_Exception e) eqn:He.
  + rewrite (run_wg_quick_not_started _ _ _ _ _ Hex Hrun He). intros [= <- <-].
    unfold record, launched. cbn [trace].
    exists ([EvExists (conf_path (win s) name);
             EvRun (cmd_of name up s) (Some (app_dir (win s)))]
            ++ [EvMessageBox Critical (lit "Execution failed") (exc_str e)]).
    split; [by rewrite <- !app_assoc|].
    intros argv cwd. apply Hev. intros e' ->%list_elem_of_singleton. by right.
  + rewrite (run_wg_quick_raises _ _ _ _ _ Hex Hrun He). intros [= <- <-].
    unfold launched. cbn [trace].
    exists ([EvExists (conf_path (win s) name);
             EvRun (cmd_of name up s) (Some (app_dir (win s)))] ++ []).
    split; [by rewrite app_nil_r|].
    intros argv cwd. apply Hev. by intros e' ?%elem_of_nil.
Qed.

(** X11. A request runs a command other than the probe only when it was
  admitted by the fresh probe and its file was found: [bring_up] only
  when the probe reported nothing active, [bring_down] only when it
  reported the target active. The command is then the one
  [run_wg_quick] builds for the target. So [bring_up] never starts
  [wg-quick up] while the probe reports some interface up. *)
Theorem single_connection_guard (name : str) (up : bool) s r s' argv cwd :
(if up then bring_up name s else bring_down name s) = (r, s') →
EvRun argv cwd ∈ drop (length (trace s)) (trace s') →
argv ≠ probe_cmd →
∃ (active : gset str) s1,
  get_active_ifaces s = (Return active, s1)
  ∧ (if up then active = ∅ else name ∈ active)
  ∧ path_exists (world s1) (conf_path (win s1) name) = true
  ∧ argv = cmd_of name up s1.
Proof.
intros Hreq Hin Hne.
destruct (get_active_ifaces s) as [[active|e] s1] eqn:Hprobe.
2:{ exfalso.
    assert (s' = s1) as ->.
    { destruct up; unfold bring_up, bring_down, bind in Hreq;
        rewrite Hprobe in Hreq; by injection Hreq. }
    destruct (get_active_ifaces_frame _ _ _ Hprobe) as (_ & Htr & _).
    rewrite Htr, drop_app_length in Hin.
    apply list_elem_of_singleton in Hin as [= -> _]. done. }
destruct (get_active_ifaces_frame _ _ _ Hprobe) as (_ & Htr & _).
assert (∀ evs, trace s' = trace s1 ++ evs →
          (∀ av cw, EvRun av cw ∈ evs → av = probe_cmd) → False) as Hquiet.
{ intros evs Heq Hevs. rewrite Heq, Htr, <- app_assoc, drop_app_length in Hin.
  apply elem_of_cons in Hin as [[= -> _]|Hin]; [done|]. by apply Hne, (Hevs _ cwd). }
assert (run_wg_quick name up s1 = (r, s') →
        path_exists (world s1) (conf_path (win s1) name) = true
        ∧ argv = cmd_of name up s1) as Hrun.
{ intros Hq. destruct (run_wg_quick_events _ _ _ _ _ Hq) as (evs & Heq & Hevs).
  rewrite Heq, Htr, <- app_assoc, drop_app_length in Hin.
  apply elem_of_cons in Hin as [[= -> _]|Hin]; [done|].
  destruct (Hevs _ _ Hin) as [[-> _]|(? & ? & _)]; done. }
exists active, s1. split; [done|].
destruct up; unfold bring_up, bring_down, bind in Hreq; rewrite Hprobe in Hreq.
- destruct (decide (active = ∅)) as [->|Hact].
  + rewrite (bool_decide_false (∅ ≠ ∅)) in Hreq by (by intros []).
    rewrite (bool_decide_false (name ∈ ∅)) in Hreq by set_solver.
    cbn [andb] in Hreq. split; [done|]. by apply Hrun.
  + exfalso. rewrite (bool_decide_true (active ≠ ∅)) in Hreq by done.
    cbn [andb] in Hreq.
    destruct (decide (name ∈ active)) as [Hn|Hn].
    * rewrite (bool_decide_false (name ∉ active)) in Hreq by (by intros []).
      rewrite (bool_decide_true (name ∈ active)) in Hreq by done.
      injection Hreq as <- <-. apply (Hquiet []); [by rewrite app_nil_r|].
      by intros av cw ?%elem_of_nil.
    * rewrite (bool_decide_true (name ∉ active)) in Hreq by done.
      injection Hreq as <- <-. eapply Hquiet; [done|].
      by intros av cw ?%list_elem_of_singleton.
- destruct (decide (name ∈ active)) as [Hn|Hn].
  + rewrite (bool_decide_false (name ∉ active)) in Hreq by (by intros []).
    split; [done|]. by apply Hrun.
  + exfalso. rewrite (bool_decide_true (name ∉ active)) in Hreq by done.
    injection Hreq as <- <-. apply (Hquiet []); [by rewrite app_nil_r|].
    by intros av cw ?%elem_of_nil.
Qed.

End Guard.

Import Scenario.

(** ** The further properties at work *)

Lemma conf_path_roundtrip_witness :
  PathLib.stem (lit "home.conf") ++ lit ".conf" = lit "home.conf".
Proof.
  refine (proj1 (proj1 (conf_path_roundtrip (new_window (lit "/opt/wirewarden"))
                          (lit "home.conf") _) _)).
  - by vm_compute.
  - by vm_compute.
Defined.

Lemma idle_all_valid f :
  f ∈ listdir idle (script_dir idle) → endswith f (lit ".conf") = true →
  Re.match_ VALID_IFACE_PATTERN (PathLib.stem f) = true.
Proof.
  intros Hin _. change (f ∈ files) in Hin. unfold files in Hin.
  repeat (apply elem_of_cons in Hin as [->|Hin]; [by vm_compute|]).
  by apply elem_of_nil in Hin.
Qed.

Lemma startup_offers_all_witness :
  offered (win (state (main idle)))
  = PathLib.stem <$> sorted (filter is_conf (listdir idle (script_dir idle))).
Proof. exact (proj1 (startup_offers_all idle idle_all_valid)). Defined.

Lemma home_offered : lit "home" ∈ offered (win (state (main idle))).
Proof. vm_compute. apply list_elem_of_here. Qed.

Lemma offered_names_valid_witness :
  Re.match_ VALID_IFACE_PATTERN (lit "home") = true.
Proof.
  exact (proj1 (offered_names_valid idle (main idle) (lit "home")
                  (rtc_refl _ _) home_offered)).
Defined.

Lemma idle_listing_NoDup : NoDup (listdir idle (script_dir idle)).
Proof.
  change (NoDup files). unfold files.
  repeat (apply NoDup_cons; split;
          [intros Hin; repeat (apply elem_of_cons in Hin as [Hin|Hin]; [by vm_compute in Hin|]);
           by apply elem_of_nil in Hin|]).
  apply NoDup_nil_2.
Qed.

Lemma idle_no_dot_conf : lit ".conf" ∉ listdir idle (script_dir idle).
Proof.
  change (lit ".conf" ∉ files). unfold files. intros Hin.
  repeat (apply elem_of_cons in Hin as [Hin|Hin]; [by vm_compute in Hin|]).
  by apply elem_of_nil in Hin.
Qed.

Lemma offered_distinct_witness : NoDup (offered (win (state (main idle)))).
Proof.
  exact (offered_distinct idle (main idle) idle_listing_NoDup idle_no_dot_conf
           (rtc_refl _ _)).
Defined.

Lemma probe_error_propagates_witness :
  refresh Locked.bare
  = (Raise Locked.denied,
     with_world Locked.locked (record [EvRun probe_cmd None] Locked.bare)).
Proof.
  refine (proj1 (proj2 (probe_error_propagates Locked.bare Locked.denied
                          Locked.locked (lit "home") _ _))).
  - done.
  - done.
Defined.

(** The run of [Tour.clicked_home]. *)
Lemma clicked_home_reachable : rtc step (main idle) Tour.clicked_home.
Proof.
  apply rtc_once.
  refine (step_up_clicked (main idle) 0 Tour.home_card _ _ _ _).
  - by vm_compute.
  - vm_compute. apply list_elem_of_here.
  - by vm_compute.
  - done.
Qed.



Lemma cards_consistent_witness : cards_wf (win (state Tour.clicked_home)).
Proof. exact (proj1 (cards_consistent idle Tour.clicked_home clicked_home_reachable)). Defined.

Lemma at_home_probe :
  get_active_ifaces at_home = (Return {[lit "home"]}, probed at_home).
Proof. by vm_compute. Qed.

Lemma refresh_sets_buttons_witness :
  ∃ s', refresh at_home = (Return tt, s')
    ∧ status_label (win s') = active_text {[lit "home"]}.
Proof.
  destruct (refresh_sets_buttons at_home (probed at_home) {[lit "home"]}
              (main_cards_wf home_up) at_home_probe) as (s' & Hr & Hl & _).
  by exists s'.
Defined.

Lemma admitted_request_succeeds_witness :
  bring_up (lit "home") at_rest
  = refresh (launched (lit "home") true home_up (probed at_rest)).
Proof.
  refine (proj1 (admitted_request_succeeds (lit "home") true at_rest (probed at_rest)
                   ∅ (Sim.ok []) home_up _ _ _ _ _)).
  - by vm_compute.
  - done.
  - by vm_compute.
  - by vm_compute.
  - done.
Defined.

Lemma up_home_new :
  EvRun Tour.up_home (Some (lit "/opt/wirewarden"))
  ∈ drop (length (trace at_rest)) (trace (bring_up (lit "home") at_rest).2).
Proof. vm_compute. do 2 apply list_elem_of_further. apply list_elem_of_here. Qed.

Lemma single_connection_guard_witness :
  ∃ (active : gset str) s1,
    get_active_ifaces at_rest = (Return active, s1) ∧ active = ∅.
Proof.
  destruct (single_connection_guard (lit "home") true at_rest
              (bring_up (lit "home") at_rest).1 (bring_up (lit "home") at_rest).2
              Tour.up_home (Some (lit "/opt/wirewarden")))
    as (active & s1 & Hprobe & Hnone & _).
  - by vm_compute.
  - exact up_home_new.
  - by vm_compute.
  - by exists active, s1.
Defined.
